(** * nest-advanced-concepts: the worker-thread offload subsystem

    A shallow embedding of
    - [src/fibonacci/fibonacci.worker.ts]      (the compute function [fib]
      and the function the worker module exports),
    - [src/fibonacci/fibonacci-worker.host.ts] ([FibonacciWorkerHost]),
    - [src/fibonacci/fibonacci.controller.ts]  ([FibonacciController]),
    - [src/scheduler/interval.scheduler.ts]    ([IntervalScheduler]),
    followed by the properties of the specification that concern them
    and by further properties of the same code.

    Numbers.  The source computes on JavaScript numbers, which are the
    binary64 values of IEEE 754.  [fib_binary64] is [fib] on those
    values, with the rounding of every [-] and [+].  [fib_fuel] is the
    same recursion on mathematical integers: it is what the source
    computes as long as every number involved is an integer that
    binary64 holds exactly, which is the case for the inputs up to 78
    ([fib_binary64_exact] below); outside that range the two differ, and
    a property is then stated on [fib_binary64].  The bound [fuel] of
    both stands for the depth of call stack the engine grants.  The host
    and the controller pass numbers on without computing on them. *)

From Stdlib Require Import ZArith Lia Floats.
From stdpp Require Import base tactics option list strings gmap.

(* ===================================================================== *)
(** ** fibonacci.worker.ts *)
(* ===================================================================== *)

Module FibonacciWorker.

Local Open Scope Z_scope.

(** [function fib(n: number): number] on the numbers of the language,
    evaluated with a bound [fuel] on the depth of the call stack; [None]
    means the bound was hit, where the engine throws a RangeError.
<<
    function fib(n) {
      if (n < 2) { return n; }
      return fib(n - 1) + fib(n - 2);
    }
>> *)
Fixpoint fib_binary64 (fuel : nat) (n : float) : option float :=
  match fuel with
  | O => None
  | S fuel' =>
      if (n <? 2)%float then Some n
      else
        match fib_binary64 fuel' (n - 1)%float, fib_binary64 fuel' (n - 2)%float with
        | Some a, Some b => Some (a + b)%float
        | _, _ => None
        end
  end.

(** The number an integer literal denotes: the integer rounded to the
    nearest binary64 value, ties to even. *)
Definition number (z : Z) : float :=
  SF2Prim (binary_normalize prec emax z 0 false).

(** The integer a number is, when it is one. *)
Definition integer (x : float) : option Z :=
  match Prim2SF x with
  | S754_zero _ => Some 0
  | S754_finite s m e =>
      if 0 <=? e then Some (cond_Zopp s (Z.pos m * 2 ^ e))
      else if Z.pos m mod 2 ^ (- e) =? 0
           then Some (cond_Zopp s (Z.pos m / 2 ^ (- e)))
           else None
  | _ => None
  end.

(** The number [x] is the integer [z]. *)
Definition is_integer (x : float) (z : Z) : bool :=
  match integer x with
  | Some z' => z' =? z
  | None => false
  end.

(** The same recursion on mathematical integers, where [<], [-] and [+]
    are exact. *)
Fixpoint fib_fuel (fuel : nat) (n : Z) : option Z :=
  match fuel with
  | O => None
  | S fuel' =>
      if n <? 2 then Some n
      else
        match fib_fuel fuel' (n - 1), fib_fuel fuel' (n - 2) with
        | Some a, Some b => Some (a + b)
        | _, _ => None
        end
  end.

(** A call-stack depth that is enough for the input [n] (see
    [fib_fuel_enough] below). *)
Definition fib_depth (n : Z) : nat := S (Z.to_nat n).

(** [fib] as a total function: [fib_fuel] run with [fib_depth n]. *)
Definition fib (n : Z) : Z := default 0 (fib_fuel (fib_depth n) n).

(** The pair [(fib k, fib (k + 1))] computed by iteration; used to
    evaluate [fib] on inputs too large for the doubly recursive form. *)
Fixpoint fib_pair (k : nat) : Z * Z :=
  match k with
  | O => (0, 1)
  | S k' => let '(a, b) := fib_pair k' in (b, a + b)
  end.

(** The inputs on which the arithmetic of [fib_binary64] is checked by
    evaluation: the integers from 2 to [checked], more than the deepest
    recursion a default call stack admits. *)
Definition checked : Z := 16384.

(** The integer [k] is a number; at that number the guard fails and the
    arguments of the two recursive calls are the numbers of the integers
    [k - 1] and [k - 2], unrounded. *)
Definition descends (k : nat) : bool :=
  let n := Z.of_nat k in
  is_integer (number n) n
  && negb (number n <? 2)%float
  && PrimFloat.Leibniz.eqb (number n - 1)%float (number (n - 1))
  && PrimFloat.Leibniz.eqb (number n - 2)%float (number (n - 2)).

(** The integers [fib k] and [fib (k + 1)] are numbers, and so is their
    sum as binary64 takes it: it is the integer [fib (k + 2)],
    unrounded. *)
Definition adds_exactly (k : nat) : bool :=
  let '(a, b) := fib_pair k in
  is_integer (number a) a
  && is_integer (number b) b
  && is_integer (number (a + b)) (a + b)
  && PrimFloat.Leibniz.eqb (number b + number a)%float (number (a + b)).

(** The values [fib i] and [fib j] compare in binary64 as the integers
    do. *)
Definition compares_exactly (i j : nat) : bool :=
  let a := number (fib_pair i).1 in
  let b := number (fib_pair j).1 in
  Bool.eqb (a <? b)%float ((fib_pair i).1 <? (fib_pair j).1).

(** [module.exports = (n: number) => { return fib(n); }]: the function a
    worker thread applies to the task it is handed. *)
Definition exports (n : Z) : Z := fib n.


End FibonacciWorker.

(* ===================================================================== *)
(** ** fibonacci-worker.host.ts *)
(* ===================================================================== *)

(** The host runs on the single control thread of the process: each of
    its methods, and each dispatch of a 'message' event to the listeners,
    runs to completion before the next one starts.  A method is therefore
    a function from host states to host states, and an execution is a
    sequence of such steps ([exec] below).  Every effect the host has on
    the worker or on a promise is appended to [trace], oldest first.

    The worker is an object of the runtime.  What the host relies on is
    modelled as the runtime does it: [postMessage] on a worker whose
    thread has exited is dropped without an error; when the thread exits,
    by itself or because it was terminated, the runtime delivers what is
    still queued, then removes every 'message' listener from the worker
    and closes its port, so that nothing is delivered afterwards; and
    [terminate] on a worker that has exited does nothing. *)

Module FibonacciWorkerHost.

(** The object [{ n, id: uniqueId }] that [run] posts to the worker. *)
Record Task := { task_n : Z; task_id : string }.

(** An element of [message$]: [{ id: string; result: number }]. *)
Record Message := { msg_id : string; msg_result : Z }.

#[global] Instance Message_eq_dec : EqDecision Message.
Proof. solve_decision. Defined.

(** The state of a promise handed to a caller. *)
Inductive Promise :=
| Pending
| Fulfilled (value : Z)
| Rejected (reason : string).

(** [this.worker]: undefined until [onApplicationBootstrap], then a
    running thread, then one that has exited. *)
Inductive WorkerRef := Undefined | Online | Terminated.

(** One subscription to [message$]: a 'message' listener on the worker
    that closes over the [uniqueId] of its call and settles the promise
    of that call, named by its index in [promises]. *)
Record Listener := { uniqueId : string; promise : nat }.

Inductive Effect :=
| PostMessage (t : Task)
| AddListener (l : Listener)
| Resolve (p : nat) (v : Z)
| Reject (p : nat) (e : string)
| Terminate.

Record Host := {
  worker : WorkerRef;
  listeners : list Listener;   (* the 'message' listeners, in the order added *)
  promises : list Promise;     (* every promise [run] has returned *)
  trace : list Effect;
}.

(** The host as the injector constructs it. *)
Definition new_host : Host :=
  {| worker := Undefined; listeners := []; promises := []; trace := [] |}.

(** [onApplicationBootstrap]: [this.worker = new Worker(...)], and
    [message$] is bound to the 'message' events of that worker.  The
    framework calls the hook once, on the host as constructed. *)
Definition onApplicationBootstrap (h : Host) : Host :=
  {| worker := Online; listeners := []; promises := promises h; trace := trace h |}.

(** The thread of the worker exits: the runtime removes the 'message'
    listeners and closes the port. *)
Definition worker_exit (h : Host) : Host :=
  match worker h with
  | Online =>
      {| worker := Terminated; listeners := [];
         promises := promises h; trace := trace h |}
  | _ => h
  end.

(** [await this.worker.terminate()]: the thread is stopped and the hook
    is done when it has exited.  On a host that was never bootstrapped
    the member access throws and nothing happens; on a worker that has
    exited already the call has no effect on the worker. *)
Definition onApplicationShutdown (h : Host) : Host :=
  match worker h with
  | Undefined => h
  | _ =>
      let h' := worker_exit h in
      {| worker := worker h'; listeners := listeners h';
         promises := promises h'; trace := trace h' ++ [Terminate] |}
  end.

(** [this.worker.postMessage(t)]; the port of a terminated worker is
    closed and the message is dropped. *)
Definition postMessage (t : Task) (h : Host) : Host :=
  match worker h with
  | Online =>
      {| worker := worker h; listeners := listeners h;
         promises := promises h; trace := trace h ++ [PostMessage t] |}
  | _ => h
  end.

(** [firstValueFrom(this.message$.pipe(filter(({ id }) => id === uniqueId),
    map(({ result }) => result)))]: a new pending promise, and a listener
    for it subscribed to the 'message' events. *)
Definition firstValueFrom (uniqueId : string) (h : Host) : nat * Host :=
  let p := length (promises h) in
  let l := {| uniqueId := uniqueId; promise := p |} in
  (p, {| worker := worker h; listeners := listeners h ++ [l];
         promises := promises h ++ [Pending];
         trace := trace h ++ [AddListener l] |}).

Definition TypeError : string :=
  "Cannot read properties of undefined (reading 'postMessage')".

(** The promise of an [async] method whose body threw. *)
Definition rejected (e : string) (h : Host) : nat * Host :=
  let p := length (promises h) in
  (p, {| worker := worker h; listeners := listeners h;
         promises := promises h ++ [Rejected e];
         trace := trace h ++ [Reject p e] |}).

(** [async run(n)], with [uniqueId] the value [randomUUID()] returns:
    post the task, then subscribe.  Returns the promise and the new
    state of the host. *)
Definition run (n : Z) (uniqueId : string) (h : Host) : nat * Host :=
  match worker h with
  | Undefined => rejected TypeError h
  | _ => firstValueFrom uniqueId (postMessage {| task_n := n; task_id := uniqueId |} h)
  end.

(** Settling a promise has an effect only while it is pending. *)
Definition settle (p : nat) (o : Promise) (ps : list Promise) : list Promise :=
  match ps !! p with
  | Some Pending => <[p := o]> ps
  | _ => ps
  end.

(** The [resolve] call of the subscriber [firstValueFrom] creates. *)
Definition resolve (p : nat) (v : Z) (h : Host) : Host :=
  {| worker := worker h; listeners := listeners h;
     promises := settle p (Fulfilled v) (promises h);
     trace := trace h ++ [Resolve p v] |}.

(** [subscriber.unsubscribe()]: the listener of this subscription is
    removed from the worker.  Every subscription has a handler and a
    promise of its own, so the promise identifies the listener. *)
Definition unsubscribe (l : Listener) (h : Host) : Host :=
  {| worker := worker h;
     listeners := filter (fun l' => promise l' ≠ promise l) (listeners h);
     promises := promises h; trace := trace h |}.

(** One listener receiving the message [m]: [filter] lets it through
    when the ids agree, [map] takes the result, and the subscriber
    resolves its promise and unsubscribes. *)
Definition notify (m : Message) (h : Host) (l : Listener) : Host :=
  if decide (msg_id m = uniqueId l)
  then unsubscribe l (resolve (promise l) (msg_result m) h)
  else h.

(** The worker emits 'message' with [m]: every listener registered at
    that moment is called, in the order they were added. *)
Definition on_message (m : Message) (h : Host) : Host :=
  foldl (notify m) h (listeners h).

(** Whether the [filter] of listener [l] lets the message [m] through,
    and what the listener then does to the promises alone. *)
Abbreviation passes m := (fun l : Listener => msg_id m = uniqueId l).

Definition settle_if (m : Message) (ps : list Promise) (l : Listener) : list Promise :=
  if decide (msg_id m = uniqueId l)
  then settle (promise l) (Fulfilled (msg_result m)) ps
  else ps.

(** A message [m] posted by the worker reaches the control thread: it
    is dispatched if the thread of the worker has not exited yet. *)
Definition deliver (m : Message) (h : Host) : Host :=
  match worker h with
  | Online => on_message m h
  | _ => h
  end.

(** fibonacci.worker.ts as the thread of the worker runs it: the module
    defines [fib] and assigns [module.exports]; the only use of
    [parentPort] is in a comment, so no handler is registered for the
    tasks the host posts. *)
Definition parentPort_handlers : list (Task → list Message) := [].

(** What the worker posts back for a task it is sent. *)
Definition worker_posts (t : Task) : list Message :=
  handler ← parentPort_handlers; handler t.

(** What the control thread can see happen, one step at a time. *)
Inductive Event :=
| Call (n : Z) (uniqueId : string)   (* a caller invokes [run(n)] *)
| Reply (m : Message)                (* a message of the worker arrives *)
| Exit                               (* the thread of the worker exits *)
| Shutdown.                          (* the framework invokes the shutdown hook *)

Definition step (h : Host) (e : Event) : Host :=
  match e with
  | Call n uniqueId => (run n uniqueId h).2
  | Reply m => deliver m h
  | Exit => worker_exit h
  | Shutdown => onApplicationShutdown h
  end.

#[global] Instance Event_eq_dec : EqDecision Event.
Proof. solve_decision. Defined.

Definition exec (es : list Event) (h : Host) : Host := foldl step h es.

(** The host once the framework has bootstrapped it: where every
    execution starts. *)
Definition host0 : Host := onApplicationBootstrap new_host.


(** The ids [randomUUID] returned to the calls of an execution. *)
Definition call_ids (es : list Event) : list string :=
  omap (fun e => match e with Call _ u => Some u | _ => None end) es.

(** The tasks the worker has been sent, and the promises on which
    [resolve] or [reject] has been called, both oldest first. *)
Definition posted (h : Host) : list Task :=
  omap (fun e => match e with PostMessage t => Some t | _ => None end) (trace h).

Definition settled (h : Host) : list nat :=
  omap (fun e => match e with
                 | Resolve p _ | Reject p _ => Some p
                 | _ => None
                 end) (trace h).

(** The invariant of the states the host can reach: subscriptions have
    distinct promises, each of them pending and not settled yet, and no
    promise was settled twice. *)
Definition wf (h : Host) : Prop :=
  NoDup (promise <$> listeners h)
  ∧ NoDup (settled h)
  ∧ (∀ l, l ∈ listeners h → promises h !! promise l = Some Pending ∧ promise l ∉ settled h)
  ∧ (∀ p, p ∈ settled h → (p < length (promises h))%nat).

End FibonacciWorkerHost.

(* ===================================================================== *)
(** ** fibonacci.controller.ts *)
(* ===================================================================== *)

Module FibonacciController.

(** [Piscina.run(task)]: a thread of the pool applies the function the
    worker file exports to [task]; the value is the one the returned
    promise is fulfilled with. *)
Definition piscina_run (task : Z) : Z := FibonacciWorker.exports task.

(** [fibonacci(@Query('n') n: number = 10)]: [None] is the absent query
    parameter, for which the default initialiser applies. *)
Definition fibonacci (n : option Z) : Z := piscina_run (default 10%Z n).

End FibonacciController.

(* ===================================================================== *)
(** ** Views of an execution of the host *)
(* ===================================================================== *)

Module FibonacciWorkerHostView.
Import FibonacciWorkerHost.

(** The task [run] posts for a call while the worker is running. *)
Definition task_of (e : Event) : option Task :=
  match e with
  | Call n u => Some {| task_n := n; task_id := u |}
  | _ => None
  end.

(** The number of calls of [run] in an execution. *)
Definition count_calls (es : list Event) : nat := length (call_ids es).

(** Every pending promise has a listener. *)
Definition covered (h : Host) : Prop :=
  ∀ p, promises h !! p = Some Pending → p ∈ promise <$> listeners h.

(** A promise is still pending and every listener subscribed for it
    waits for the id [u]. *)
Definition waits_for (p : nat) (u : string) (h : Host) : Prop :=
  promises h !! p = Some Pending
  ∧ ∀ l, l ∈ listeners h → promise l = p → uniqueId l = u.

End FibonacciWorkerHostView.

(* ===================================================================== *)
(** ** The cost of fib *)
(* ===================================================================== *)

Module FibonacciWorkerCost.

Local Open Scope Z_scope.

(** [fib] of fibonacci.worker.ts, returning next to its value the number
    of invocations of [fib] the evaluation makes, the outermost one
    included. *)
Fixpoint fib_traced (fuel : nat) (n : float) : option (float * Z) :=
  match fuel with
  | O => None
  | S fuel' =>
      if (n <? 2)%float then Some (n, 1)
      else
        match fib_traced fuel' (n - 1)%float, fib_traced fuel' (n - 2)%float with
        | Some (a, ca), Some (b, cb) => Some ((a + b)%float, 1 + ca + cb)
        | _, _ => None
        end
  end.

End FibonacciWorkerCost.

(* ===================================================================== *)
(** ** scheduler/interval.scheduler.ts *)
(* ===================================================================== *)

(** [IntervalScheduler] scans the providers of the application at
    bootstrap and starts a timer for every method decorated with
    [@Interval(ms)] in a class decorated with [@IntervalHost]; at
    shutdown it clears the timers it started.  The providers are given as
    the scan reads them, and the timers of the runtime are a table from
    timer references to what was scheduled. *)

Module IntervalScheduler.

Section Scheduler.

(** The value given to [@Interval]; the scheduler only hands it on to
    [setInterval]. *)
Context {Ms : Type}.

(** A method name [getAllMethodNames(prototype)] returns, with
    [reflector.get(INTERVAL_KEY, instance[methodKey])]; [None] is
    [undefined]. *)
Record Method := { methodKey : string; interval : option Ms }.

(** A truthy [instance] of a provider: whether
    [Object.getPrototypeOf(instance)] is truthy, the truthiness of
    [reflector.get(INTERVAL_HOST_KEY, instance.constructor)] ([None] when
    the metadata is missing), and its methods. *)
Record Instance := {
  prototype : bool;
  isIntervalHost : option bool;
  methods : list Method;
}.

(** An element of [discoveryService.getProviders()]; [None] is a falsy
    [instance]. *)
Record InstanceWrapper := { instance : option Instance }.

(** What [setInterval(() => instance[methodKey](), interval)] schedules. *)
Record Timer := {
  timer_instance : Instance;
  timer_method : string;
  timer_interval : Ms;
}.

(** The timers of the runtime: the active ones by reference, and the
    next reference [setInterval] hands out. *)
Record Timers := { next_ref : nat; active : gmap nat Timer }.

Definition setInterval (t : Timer) (T : Timers) : nat * Timers :=
  (next_ref T,
   {| next_ref := S (next_ref T); active := <[next_ref T := t]> (active T) |}).

(** Clearing a reference that is not active does nothing. *)
Definition clearInterval (ref : nat) (T : Timers) : Timers :=
  {| next_ref := next_ref T; active := delete ref (active T) |}.

(** The scheduler ([this.intervals]) next to the timers of the runtime. *)
Record State := { intervals : list nat; timers : Timers }.

(** A scheduler as constructed: [intervals = []]. *)
Definition new_scheduler (T : Timers) : State := {| intervals := []; timers := T |}.

(** The body of [methodKeys.forEach]. *)
Definition schedule (inst : Instance) (s : State) (m : Method) : State :=
  match interval m with
  | None => s
  | Some ms =>
      let t := {| timer_instance := inst; timer_method := methodKey m;
                  timer_interval := ms |} in
      let '(intervalRef, T) := setInterval t (timers s) in
      {| intervals := intervals s ++ [intervalRef]; timers := T |}
  end.

(** The body of [providers.forEach]. *)
Definition scan (s : State) (wrapper : InstanceWrapper) : State :=
  match instance wrapper with
  | None => s
  | Some inst =>
      if negb (prototype inst) then s
      else if negb (default false (isIntervalHost inst)) then s
      else foldl (schedule inst) s (methods inst)
  end.

Definition onApplicationBootstrap (providers : list InstanceWrapper) (s : State) : State :=
  foldl scan s providers.

Definition onApplicationShutdown (s : State) : State :=
  {| intervals := intervals s;
     timers := foldl (fun T intervalRef => clearInterval intervalRef T)
                     (timers s) (intervals s) |}.

(** The decorated methods of the interval hosts among the providers, in
    the order the scan meets them. *)
Definition decorated_methods (inst : Instance) : list Timer :=
  omap (fun m => match interval m with
                 | Some ms => Some {| timer_instance := inst;
                                      timer_method := methodKey m;
                                      timer_interval := ms |}
                 | None => None
                 end) (methods inst).

Definition is_host (inst : Instance) : bool :=
  prototype inst && default false (isIntervalHost inst).

Definition decorated (providers : list InstanceWrapper) : list Timer :=
  providers ≫= fun wrapper =>
    match instance wrapper with
    | Some inst => if is_host inst then decorated_methods inst else []
    | None => []
    end.

(** Starting the timers of a list, one [setInterval] and one
    [intervals.push] each. *)
Definition install (ts : list Timer) (s : State) : State :=
  foldl (fun s t =>
           let '(intervalRef, T) := setInterval t (timers s) in
           {| intervals := intervals s ++ [intervalRef]; timers := T |}) s ts.

(** Every active timer was handed out by [setInterval]. *)
Definition timers_fresh (T : Timers) : Prop :=
  ∀ r, (next_ref T ≤ r)%nat → active T !! r = None.

End Scheduler.

Arguments Method : clear implicits.
Arguments Instance : clear implicits.
Arguments InstanceWrapper : clear implicits.
Arguments Timer : clear implicits.
Arguments Timers : clear implicits.
Arguments State : clear implicits.

End IntervalScheduler.

(* ===================================================================== *)
(** ** Properties of fibonacci.worker.ts *)
(* ===================================================================== *)

Module FibonacciWorkerFacts.
Import FibonacciWorker.
Local Open Scope Z_scope.

Lemma fib_fuel_base fuel n : n < 2 -> fib_fuel (S fuel) n = Some n.
Proof.
  intros Hn. simpl. destruct (Z.ltb_spec n 2) as [_|Hge]; [reflexivity|lia].
Qed.

Lemma fib_fuel_rec fuel n :
  2 <= n ->
  fib_fuel (S fuel) n =
    match fib_fuel fuel (n - 1), fib_fuel fuel (n - 2) with
    | Some a, Some b => Some (a + b)
    | _, _ => None
    end.
Proof.
  intros Hn. simpl. destruct (Z.ltb_spec n 2) as [Hlt|_]; [lia|reflexivity].
Qed.

(** More fuel never changes a result that was reached. *)
Lemma fib_fuel_mono fuel : forall fuel' n r,
  (fuel <= fuel')%nat -> fib_fuel fuel n = Some r -> fib_fuel fuel' n = Some r.
Proof.
  induction fuel as [|fuel IH]; intros fuel' n r Hle Hr; [discriminate|].
  destruct fuel' as [|fuel']; [lia|].
  destruct (Z.ltb_spec n 2) as [Hlt|Hge].
  - rewrite fib_fuel_base in Hr |- * by assumption. assumption.
  - rewrite fib_fuel_rec in Hr |- * by assumption.
    destruct (fib_fuel fuel (n - 1)) as [a|] eqn:Ha; [|discriminate].
    destruct (fib_fuel fuel (n - 2)) as [b|] eqn:Hb; [|discriminate].
    rewrite (IH fuel' (n - 1) a), (IH fuel' (n - 2) b) by (assumption || lia).
    assumption.
Qed.

(** With a stack of depth [fib_depth n] the evaluation of [fib n]
    reaches a result. *)
Lemma fib_fuel_enough fuel : forall n,
  (Z.to_nat n < fuel)%nat -> exists r, fib_fuel fuel n = Some r.
Proof.
  induction fuel as [|fuel IH]; intros n Hn; [lia|].
  destruct (Z.ltb_spec n 2) as [Hlt|Hge].
  - exists n. apply fib_fuel_base; assumption.
  - rewrite fib_fuel_rec by assumption.
    destruct (IH (n - 1)) as [a ->]; [lia|].
    destruct (IH (n - 2)) as [b ->]; [lia|].
    eauto.
Qed.

Lemma fib_fuel_fib fuel n r : fib_fuel fuel n = Some r -> fib n = r.
Proof.
  intros Hr. unfold fib.
  destruct (fib_fuel_enough (fib_depth n) n) as [r' Hr']; [unfold fib_depth; lia|].
  rewrite Hr'. simpl.
  pose proof (fib_fuel_mono _ (Nat.max fuel (fib_depth n)) _ _
                (Nat.le_max_l _ _) Hr) as H1.
  pose proof (fib_fuel_mono _ (Nat.max fuel (fib_depth n)) _ _
                (Nat.le_max_r _ _) Hr') as H2.
  congruence.
Qed.

Lemma fib_depth_fib n : fib_fuel (fib_depth n) n = Some (fib n).
Proof.
  destruct (fib_fuel_enough (fib_depth n) n) as [r Hr]; [unfold fib_depth; lia|].
  rewrite Hr. f_equal. symmetry. eapply fib_fuel_fib; eassumption.
Qed.

(** The defining equation of the source, for the total function. *)
Lemma fib_unfold n : fib n = if n <? 2 then n else fib (n - 1) + fib (n - 2).
Proof.
  destruct (Z.ltb_spec n 2) as [Hlt|Hge].
  - apply (fib_fuel_fib 1). apply fib_fuel_base; assumption.
  - apply (fib_fuel_fib (S (fib_depth (n - 1)))).
    rewrite fib_fuel_rec by assumption.
    rewrite fib_depth_fib.
    rewrite (fib_fuel_mono (fib_depth (n - 2)) (fib_depth (n - 1)) (n - 2) (fib (n - 2)));
      [reflexivity| unfold fib_depth; lia | apply fib_depth_fib].
Qed.

(** *** The range on which JavaScript numbers compute [fib] exactly *)

Lemma fib_pair_fib k : fib_pair k = (fib (Z.of_nat k), fib (Z.of_nat k + 1)).
Proof.
  induction k as [|k IH]; [reflexivity|].
  cbn [fib_pair]. rewrite IH, Nat2Z.inj_succ. unfold Z.succ. f_equal.
  rewrite (fib_unfold (Z.of_nat k + 1 + 1)).
  destruct (Z.ltb_spec (Z.of_nat k + 1 + 1) 2) as [Hlt|_]; [lia|].
  replace (Z.of_nat k + 1 + 1 - 1) with (Z.of_nat k + 1) by lia.
  replace (Z.of_nat k + 1 + 1 - 2) with (Z.of_nat k) by lia.
  lia.
Qed.

Lemma fib_increasing k :
  0 <= fib (Z.of_nat k) /\ fib (Z.of_nat k) <= fib (Z.of_nat k + 1).
Proof.
  induction k as [|k [IH0 IH1]]; [vm_compute; split; discriminate|].
  rewrite Nat2Z.inj_succ. unfold Z.succ.
  rewrite (fib_unfold (Z.of_nat k + 1 + 1)).
  destruct (Z.ltb_spec (Z.of_nat k + 1 + 1) 2) as [Hlt|_]; [lia|].
  replace (Z.of_nat k + 1 + 1 - 1) with (Z.of_nat k + 1) by lia.
  replace (Z.of_nat k + 1 + 1 - 2) with (Z.of_nat k) by lia.
  lia.
Qed.

Lemma fib_monotone j k : (j <= k)%nat -> fib (Z.of_nat j) <= fib (Z.of_nat k).
Proof.
  induction 1 as [|k _ IH]; [lia|].
  rewrite Nat2Z.inj_succ. unfold Z.succ.
  pose proof (fib_increasing k). lia.
Qed.



(** C6.  The compute operation meets the reference values of the
    Fibonacci sequence: [compute(10) = 55], [compute(0) = 0] and
    [compute(1) = 1]. *)
Theorem compute_reference_values :
  exports 10 = 55 ∧ exports 0 = 0 ∧ exports 1 = 1.
Proof. repeat split; vm_compute; reflexivity. Qed.



(** *** [fib] on the numbers of the language *)

Lemma fib_binary64_base fuel x :
  (x <? 2)%float = true → fib_binary64 (S fuel) x = Some x.
Proof. intros Hx. cbn [fib_binary64]. rewrite Hx. reflexivity. Qed.

Lemma fib_binary64_rec fuel x :
  (x <? 2)%float = false →
  fib_binary64 (S fuel) x =
    match fib_binary64 fuel (x - 1)%float, fib_binary64 fuel (x - 2)%float with
    | Some a, Some b => Some (a + b)%float
    | _, _ => None
    end.
Proof. intros Hx. cbn [fib_binary64]. rewrite Hx. reflexivity. Qed.

Lemma descends_checked :
  forallb descends (seq 2 (Z.to_nat checked - 1)) = true.
Proof. vm_compute. reflexivity. Qed.

Lemma adds_exactly_checked : forallb adds_exactly (seq 0 77) = true.
Proof. vm_compute. reflexivity. Qed.

(** From 2 up to [checked] the guard fails and the arguments of the two
    recursive calls are the next two smaller integers. *)
Lemma is_integer_spec x z : is_integer x z = true ↔ integer x = Some z.
Proof.
  unfold is_integer. destruct (integer x) as [z'|].
  - rewrite Z.eqb_eq. split; congruence.
  - split; discriminate.
Qed.

Lemma descends_spec n :
  2 <= n <= checked →
  integer (number n) = Some n
  ∧ (number n <? 2)%float = false
  ∧ (number n - 1)%float = number (n - 1)
  ∧ (number n - 2)%float = number (n - 2).
Proof.
  intros Hn. pose proof descends_checked as Ht.
  rewrite forallb_forall in Ht. specialize (Ht (Z.to_nat n)).
  assert (Hin : In (Z.to_nat n) (seq 2 (Z.to_nat checked - 1)))
    by (apply in_seq; unfold checked in *; lia).
  apply Ht in Hin. unfold descends in Hin. cbv zeta in Hin.
  rewrite Z2Nat.id in Hin by lia.
  apply andb_prop in Hin as [Hin H2]. apply andb_prop in Hin as [Hin H1].
  apply andb_prop in Hin as [Hi H0].
  apply negb_true_iff in H0. apply is_integer_spec in Hi.
  apply FloatAxioms.Leibniz.eqb_spec in H1, H2. auto.
Qed.

(** From 0 up to 78 the integers [fib k] and [fib (k + 1)] are numbers,
    and their sum in binary64 is the number of [fib (k + 2)]. *)
Lemma adds_exactly_spec k :
  0 <= k <= 76 →
  integer (number (fib k)) = Some (fib k)
  ∧ integer (number (fib (k + 1))) = Some (fib (k + 1))
  ∧ integer (number (fib (k + 2))) = Some (fib (k + 2))
  ∧ (number (fib (k + 1)) + number (fib k))%float = number (fib (k + 2)).
Proof.
  intros Hk. pose proof adds_exactly_checked as Ht.
  rewrite forallb_forall in Ht. specialize (Ht (Z.to_nat k)).
  assert (Hin : In (Z.to_nat k) (seq 0 77)) by (apply in_seq; lia).
  apply Ht in Hin. unfold adds_exactly in Hin.
  rewrite fib_pair_fib, Z2Nat.id in Hin by lia.
  assert (Hrec : fib (k + 2) = fib k + fib (k + 1)).
  { rewrite (fib_unfold (k + 2)). destruct (Z.ltb_spec (k + 2) 2); [lia|].
    replace (k + 2 - 1) with (k + 1) by lia.
    replace (k + 2 - 2) with k by lia. lia. }
  rewrite <- Hrec in Hin.
  apply andb_prop in Hin as [Hin H3]. apply andb_prop in Hin as [Hin H2].
  apply andb_prop in Hin as [H0 H1].
  apply is_integer_spec in H0, H1, H2.
  apply FloatAxioms.Leibniz.eqb_spec in H3. auto.
Qed.

Lemma number_below_two n : 0 <= n < 2 → (number n <? 2)%float = true.
Proof.
  intros Hn. assert (n = 0 \/ n = 1) as [-> | ->] by lia; vm_compute; reflexivity.
Qed.

(** The evaluation at an integer up to [checked] needs a call stack as
    deep as the integer, and no more. *)
Lemma fib_binary64_depth fuel : ∀ n,
  0 <= n <= checked →
  is_Some (fib_binary64 fuel (number n)) ↔ Z.max 1 n <= Z.of_nat fuel.
Proof.
  unfold checked.
  induction fuel as [|fuel IH]; intros n Hn.
  - cbn [fib_binary64]. split; [intros [r Hr]; discriminate|lia].
  - destruct (Z.ltb_spec n 2) as [Hlt|Hge].
    + rewrite fib_binary64_base by (apply number_below_two; lia).
      split; [lia|eauto].
    + destruct (descends_spec n) as (_ & H0 & H1 & H2); [unfold checked; lia|].
      rewrite fib_binary64_rec, H1, H2 by exact H0. split.
      * intros [r Hr].
        destruct (fib_binary64 fuel (number (n - 1))) as [a|] eqn:Ha; [|discriminate].
        assert (Hs : is_Some (fib_binary64 fuel (number (n - 1)))) by (rewrite Ha; eauto).
        apply IH in Hs; lia.
      * intros Hle.
        destruct (proj2 (IH (n - 1) ltac:(lia))) as [a ->]; [lia|].
        destruct (proj2 (IH (n - 2) ltac:(lia))) as [b ->]; [lia|].
        eauto.
Qed.

(** Up to the input 78 the evaluation on binary64 returns the integer
    that the recursion on integers computes. *)
Lemma fib_binary64_exact fuel : ∀ n,
  0 <= n <= 78 → Z.max 1 n <= Z.of_nat fuel →
  fib_binary64 fuel (number n) = Some (number (fib n)).
Proof.
  induction fuel as [|fuel IH]; intros n Hn Hfuel; [lia|].
  destruct (Z.ltb_spec n 2) as [Hlt|Hge].
  - rewrite fib_binary64_base by (apply number_below_two; lia).
    rewrite (fib_unfold n). destruct (Z.ltb_spec n 2); [reflexivity|lia].
  - destruct (descends_spec n) as (_ & H0 & H1 & H2); [unfold checked; lia|].
    rewrite fib_binary64_rec, H1, H2 by exact H0.
    rewrite (IH (n - 1)), (IH (n - 2)) by lia. f_equal.
    destruct (adds_exactly_spec (n - 2)) as (_ & _ & _ & Hsum); [lia|].
    replace (n - 2 + 1) with (n - 1) in Hsum by lia.
    replace (n - 2 + 2) with n in Hsum by lia.
    exact Hsum.
Qed.

(** Up to the input 78 the integer [fib n] is a number. *)
Lemma number_fib_exact n : 0 <= n <= 78 → integer (number (fib n)) = Some (fib n).
Proof.
  intros Hn. destruct (Z.le_gt_cases n 76) as [Hle|Hgt].
  - apply (adds_exactly_spec n). lia.
  - destruct (adds_exactly_spec (n - 2)) as (_ & _ & H & _); [lia|].
    replace (n - 2 + 2) with n in H by lia. exact H.
Qed.




(** C9.  For every integer [n < 2], negative ones included, the compute
    function returns [n] itself. *)
Theorem fib_below_two_echoes (n : Z) : n < 2 → fib n = n ∧ exports n = n.
Proof.
  intros Hn. unfold exports. rewrite fib_unfold.
  destruct (Z.ltb_spec n 2); [split; reflexivity|lia].
Qed.

Lemma fib_below_two_echoes_witness :
  -5 < 2 ∧ fib (-5) = -5 ∧ exports (-5) = -5.
Proof. split; [lia|]. apply (fib_below_two_echoes (-5)). lia. Defined.

(** C10.  The fibonacci endpoint defaults its input to 10 when the query
    parameter [n] is absent: the call computes [fib(10)], which is 55. *)
Theorem fibonacci_default_input :
  FibonacciController.fibonacci None = fib 10
  ∧ FibonacciController.fibonacci None = 55.
Proof. split; vm_compute; reflexivity. Qed.

End FibonacciWorkerFacts.

(* ===================================================================== *)
(** ** Properties of fibonacci-worker.host.ts *)
(* ===================================================================== *)

Module FibonacciWorkerHostFacts.
Import FibonacciWorkerHost FibonacciWorkerHostView.

Create HintDb host_wf.

(** Refutes the membership [H] of an element in an explicit list by
    comparing it with each entry in turn. *)
Ltac not_in_list H :=
  let Heq := fresh "Heq" in
  repeat (apply elem_of_cons in H as [Heq|H];
          [first [ discriminate Heq
                 | injection Heq as ->; simpl; discriminate
                 | subst; simpl; discriminate ]|]);
  apply elem_of_nil in H; destruct H.

(** *** One dispatch of a message, field by field *)

Lemma foldl_notify_worker m ls : ∀ h, worker (foldl (notify m) h ls) = worker h.
Proof.
  induction ls as [|l ls IH]; intros h; [reflexivity|].
  simpl. rewrite IH. unfold notify. case_decide; reflexivity.
Qed.

Lemma foldl_notify_promises m ls : ∀ h,
  promises (foldl (notify m) h ls) = foldl (settle_if m) (promises h) ls.
Proof.
  induction ls as [|l ls IH]; intros h; [reflexivity|].
  simpl. rewrite IH. f_equal.
  unfold notify, settle_if. case_decide; reflexivity.
Qed.

Lemma foldl_notify_trace m ls : ∀ h,
  trace (foldl (notify m) h ls) =
  trace h ++ ((λ l, Resolve (promise l) (msg_result m)) <$> filter (passes m) ls).
Proof.
  induction ls as [|l ls IH]; intros h; simpl.
  - rewrite app_nil_r. reflexivity.
  - rewrite IH, filter_cons. unfold notify.
    case_decide; simpl; [rewrite <- app_assoc|]; reflexivity.
Qed.

Lemma foldl_notify_listeners m ls : ∀ h,
  listeners (foldl (notify m) h ls) =
  filter (λ l', promise l' ∉ promise <$> filter (passes m) ls) (listeners h).
Proof.
  induction ls as [|l ls IH]; intros h; simpl.
  - symmetry. induction (listeners h) as [|x xs IHx]; [reflexivity|].
    rewrite filter_cons_True, IHx; [reflexivity|]. apply not_elem_of_nil.
  - rewrite IH, filter_cons. unfold notify.
    case_decide; simpl.
    + rewrite list_filter_filter. apply list_filter_iff.
      intros l'. rewrite not_elem_of_cons. tauto.
    + reflexivity.
Qed.

Lemma settle_length p o ps : length (settle p o ps) = length ps.
Proof.
  unfold settle. destruct (ps !! p) as [[]|]; rewrite ?length_insert; reflexivity.
Qed.

Lemma foldl_settle_if_length m ls : ∀ ps,
  length (foldl (settle_if m) ps ls) = length ps.
Proof.
  induction ls as [|l ls IH]; intros ps; [reflexivity|].
  simpl. rewrite IH. unfold settle_if. case_decide; [apply settle_length|reflexivity].
Qed.

(** A message that passes no filter leaves the host as it was. *)
Lemma foldl_notify_no_match m ls h :
  Forall (λ l, msg_id m ≠ uniqueId l) ls → foldl (notify m) h ls = h.
Proof.
  induction 1 as [|l ls Hl _ IH]; [reflexivity|].
  simpl. unfold notify at 2.
  rewrite decide_False by assumption. exact IH.
Qed.

Lemma on_message_orphan m h :
  (∀ l, l ∈ listeners h → uniqueId l ≠ msg_id m) → on_message m h = h.
Proof.
  intros Hm. apply foldl_notify_no_match.
  apply Forall_forall. intros l Hl Hp. apply (Hm l Hl). symmetry. exact Hp.
Qed.

(** *** Lookups in the promises after a dispatch *)

Lemma lookup_settle_eq p o ps :
  ps !! p = Some Pending → settle p o ps !! p = Some o.
Proof.
  intros Hp. unfold settle. rewrite Hp.
  apply list_lookup_insert_eq. eapply lookup_lt_Some, Hp.
Qed.

Lemma lookup_settle_ne p q o ps : p ≠ q → settle p o ps !! q = ps !! q.
Proof.
  intros Hne. unfold settle.
  destruct (ps !! p) as [[]|]; try reflexivity.
  apply list_lookup_insert_ne, Hne.
Qed.

Lemma lookup_settle_settled p q o o' ps :
  ps !! q = Some o' → o' ≠ Pending → settle p o ps !! q = Some o'.
Proof.
  intros Hq Ho'. destruct (decide (p = q)) as [->|Hne].
  - unfold settle. rewrite Hq. destruct o'; congruence.
  - rewrite lookup_settle_ne by exact Hne. exact Hq.
Qed.

Lemma foldl_settle_if_unfired m ls : ∀ ps p,
  p ∉ promise <$> filter (passes m) ls →
  foldl (settle_if m) ps ls !! p = ps !! p.
Proof.
  induction ls as [|l ls IH]; intros ps p Hp; [reflexivity|].
  simpl. rewrite filter_cons in Hp. unfold settle_if at 2.
  case_decide.
  - rewrite fmap_cons, not_elem_of_cons in Hp. destruct Hp as [Hne Hp].
    rewrite IH by exact Hp. apply lookup_settle_ne. congruence.
  - apply IH, Hp.
Qed.

Lemma foldl_settle_if_settled m ls : ∀ ps p o,
  ps !! p = Some o → o ≠ Pending → foldl (settle_if m) ps ls !! p = Some o.
Proof.
  induction ls as [|l ls IH]; intros ps p o Hp Ho; [exact Hp|].
  simpl. apply IH; [|exact Ho]. unfold settle_if.
  case_decide; [apply lookup_settle_settled|]; assumption.
Qed.

Lemma foldl_settle_if_fired m ls : ∀ ps p,
  ps !! p = Some Pending →
  p ∈ promise <$> filter (passes m) ls →
  foldl (settle_if m) ps ls !! p = Some (Fulfilled (msg_result m)).
Proof.
  induction ls as [|l ls IH]; intros ps p Hp Hin.
  - simpl in Hin. apply elem_of_nil in Hin. destruct Hin.
  - simpl. rewrite filter_cons in Hin. unfold settle_if at 2.
    case_decide as Hpass.
    + destruct (decide (promise l = p)) as [<-|Hne].
      * apply foldl_settle_if_settled; [|discriminate].
        apply lookup_settle_eq, Hp.
      * rewrite fmap_cons, elem_of_cons in Hin.
        destruct Hin as [->|Hin]; [congruence|].
        apply IH; [|exact Hin]. rewrite lookup_settle_ne by exact Hne. exact Hp.
    + apply IH; assumption.
Qed.

(** *** The settled promises, as read off the trace *)

Lemma settled_snoc h e :
  omap (λ e, match e with
             | Resolve p _ | Reject p _ => Some p
             | _ => None
             end) (trace h ++ [e])
  = settled h ++ match e with
                 | Resolve p _ | Reject p _ => [p]
                 | _ => []
                 end.
Proof. rewrite omap_app. unfold settled. destruct e; reflexivity. Qed.

Lemma settled_on_message m h :
  settled (on_message m h) =
  settled h ++ (promise <$> filter (passes m) (listeners h)).
Proof.
  unfold settled, on_message. rewrite foldl_notify_trace, omap_app. f_equal.
  induction (filter (passes m) (listeners h)) as [|l ls IH]; [reflexivity|].
  rewrite !fmap_cons. cbn [omap list_omap]. f_equal. exact IH.
Qed.

Lemma listeners_on_message m h :
  listeners (on_message m h) =
  filter (λ l', promise l' ∉ promise <$> filter (passes m) (listeners h))
         (listeners h).
Proof. apply foldl_notify_listeners. Qed.

Lemma length_promises_on_message m h :
  length (promises (on_message m h)) = length (promises h).
Proof.
  unfold on_message. rewrite foldl_notify_promises. apply foldl_settle_if_length.
Qed.

(** *** The invariant *)

Lemma wf_host0 : wf host0.
Proof.
  unfold wf, host0, settled. simpl.
  split; [apply NoDup_nil_2|]. split; [apply NoDup_nil_2|].
  split; intros ? []%elem_of_nil.
Qed.

Lemma wf_rejected e h : wf h → wf (rejected e h).2.
Proof.
  intros (Hl & Hs & Hlp & Hsp). unfold wf, settled. simpl.
  rewrite settled_snoc, length_app. simpl.
  split; [exact Hl|]. split; [|split].
  - apply NoDup_app. split; [exact Hs|]. split; [|apply NoDup_singleton].
    intros p Hp ->%list_elem_of_singleton. apply Hsp in Hp. lia.
  - intros l Hin. destruct (Hlp l Hin) as [Hpend Hns].
    split; [apply lookup_app_l_Some, Hpend|].
    apply lookup_lt_Some in Hpend.
    rewrite not_elem_of_app, list_elem_of_singleton. split; [exact Hns|lia].
  - intros p [Hp| ->%list_elem_of_singleton]%elem_of_app; [apply Hsp in Hp|]; lia.
Qed.

Lemma wf_postMessage t h : wf h → wf (postMessage t h).
Proof.
  intros Hwf. unfold postMessage. destruct (worker h); try exact Hwf.
  destruct Hwf as (Hl & Hs & Hlp & Hsp). unfold wf, settled in *. simpl.
  rewrite settled_snoc, app_nil_r. unfold settled. auto.
Qed.

Lemma wf_firstValueFrom u h : wf h → wf (firstValueFrom u h).2.
Proof.
  intros (Hl & Hs & Hlp & Hsp). unfold wf, settled. simpl.
  rewrite settled_snoc, app_nil_r, length_app, fmap_app. simpl.
  split; [|split; [exact Hs|split]].
  - apply NoDup_app. split; [exact Hl|]. split; [|apply NoDup_singleton].
    intros p (l & -> & Hin)%list_elem_of_fmap ?%list_elem_of_singleton.
    destruct (Hlp l Hin) as [Hpend%lookup_lt_Some _]. lia.
  - intros l [Hin| ->%list_elem_of_singleton]%elem_of_app.
    + destruct (Hlp l Hin) as [Hpend Hns].
      split; [apply lookup_app_l_Some, Hpend|exact Hns].
    + simpl. split; [apply list_lookup_middle; reflexivity|].
      intros Hp%Hsp. lia.
  - intros p Hp%Hsp. lia.
Qed.

Lemma wf_run n u h : wf h → wf (run n u h).2.
Proof.
  intros Hwf. unfold run.
  destruct (worker h); auto using wf_rejected, wf_firstValueFrom, wf_postMessage.
Qed.

Lemma wf_worker_exit h : wf h → wf (worker_exit h).
Proof.
  intros Hwf. unfold worker_exit. destruct (worker h); try exact Hwf.
  destruct Hwf as (Hl & Hs & Hlp & Hsp). unfold wf, settled in *. simpl.
  split; [apply NoDup_nil_2|]. split; [exact Hs|].
  split; [intros l []%elem_of_nil|exact Hsp].
Qed.

Lemma wf_onApplicationShutdown h : wf h → wf (onApplicationShutdown h).
Proof.
  intros Hwf. unfold onApplicationShutdown. destruct (worker h); try exact Hwf.
  all: apply wf_worker_exit in Hwf.
  all: destruct Hwf as (Hl & Hs & Hlp & Hsp); unfold wf, settled in *; simpl.
  all: rewrite settled_snoc, app_nil_r; unfold settled; auto.
Qed.

Lemma wf_on_message m h : wf h → wf (on_message m h).
Proof.
  intros (Hl & Hs & Hlp & Hsp). unfold wf.
  rewrite settled_on_message, listeners_on_message, length_promises_on_message.
  assert (Hsub : promise <$> filter (passes m) (listeners h)
                 `sublist_of` promise <$> listeners h)
    by (apply fmap_sublist, sublist_filter).
  assert (Hfired : ∀ p, p ∈ promise <$> filter (passes m) (listeners h) →
                        ∃ l, l ∈ listeners h ∧ promise l = p).
  { intros p (l & -> & [_ Hin]%list_elem_of_filter)%list_elem_of_fmap. eauto. }
  split; [|split; [|split]].
  - eapply sublist_NoDup; [exact Hl|]. apply fmap_sublist, sublist_filter.
  - apply NoDup_app. split; [exact Hs|]. split.
    + intros p Hp (l & Hin & <-)%Hfired. apply (Hlp l Hin). exact Hp.
    + exact (sublist_NoDup _ _ Hl Hsub).
  - intros l [Hnf Hin]%list_elem_of_filter. destruct (Hlp l Hin) as [Hpend Hns].
    split.
    + unfold on_message. rewrite foldl_notify_promises.
      rewrite foldl_settle_if_unfired by exact Hnf. exact Hpend.
    + rewrite not_elem_of_app. auto.
  - intros p [Hp|(l & Hin & <-)%Hfired]%elem_of_app; [auto|].
    destruct (Hlp l Hin) as [Hpend%lookup_lt_Some _]. exact Hpend.
Qed.

Lemma wf_deliver m h : wf h → wf (deliver m h).
Proof.
  intros Hwf. unfold deliver. destruct (worker h); auto using wf_on_message.
Qed.

Lemma wf_step h e : wf h → wf (step h e).
Proof.
  destruct e; simpl;
    auto using wf_run, wf_deliver, wf_worker_exit, wf_onApplicationShutdown.
Qed.

Lemma wf_exec es : ∀ h, wf h → wf (exec es h).
Proof.
  induction es as [|e es IH]; intros h Hwf; [exact Hwf|].
  apply IH, wf_step, Hwf.
Qed.

#[local] Hint Resolve wf_host0 wf_run wf_on_message wf_onApplicationShutdown
  wf_step wf_exec : host_wf.

(** *** Executions *)

Lemma exec_app es es' h : exec (es ++ es') h = exec es' (exec es h).
Proof. apply foldl_app. Qed.

Lemma run_online n u h :
  worker h = Online →
  run n u h =
  (length (promises h),
   {| worker := Online;
      listeners := listeners h ++ [{| uniqueId := u; promise := length (promises h) |}];
      promises := promises h ++ [Pending];
      trace := trace h ++ [PostMessage {| task_n := n; task_id := u |};
                           AddListener {| uniqueId := u; promise := length (promises h) |}] |}).
Proof.
  intros Hw. unfold run, postMessage, firstValueFrom. rewrite Hw. simpl.
  rewrite <- app_assoc. reflexivity.
Qed.

Lemma listeners_run n u h l : l ∈ listeners h → l ∈ listeners (run n u h).2.
Proof.
  intros Hl. unfold run, postMessage, firstValueFrom, rejected.
  destruct (worker h); simpl; try exact Hl; apply elem_of_app; left; exact Hl.
Qed.

Lemma promises_run n u h p o :
  promises h !! p = Some o → promises (run n u h).2 !! p = Some o.
Proof.
  intros Hp. unfold run, postMessage, firstValueFrom, rejected.
  destruct (worker h); simpl; apply lookup_app_l_Some, Hp.
Qed.

(** *** The exit of the worker and the shutdown hook, field by field *)

Lemma promises_worker_exit h : promises (worker_exit h) = promises h.
Proof. unfold worker_exit. destruct (worker h); reflexivity. Qed.

Lemma promises_onApplicationShutdown h :
  promises (onApplicationShutdown h) = promises h.
Proof.
  unfold onApplicationShutdown.
  destruct (worker h); try reflexivity; apply promises_worker_exit.
Qed.

Lemma settled_worker_exit h : settled (worker_exit h) = settled h.
Proof. unfold worker_exit. destruct (worker h); reflexivity. Qed.

Lemma settled_onApplicationShutdown h :
  settled (onApplicationShutdown h) = settled h.
Proof.
  unfold onApplicationShutdown. destruct (worker h); try reflexivity.
  all: unfold settled at 1; simpl; rewrite settled_snoc, app_nil_r.
  all: apply settled_worker_exit.
Qed.

Lemma listeners_worker_exit h l : l ∈ listeners (worker_exit h) → l ∈ listeners h.
Proof.
  unfold worker_exit. destruct (worker h); simpl; auto.
  intros []%elem_of_nil.
Qed.

Lemma listeners_onApplicationShutdown h l :
  l ∈ listeners (onApplicationShutdown h) → l ∈ listeners h.
Proof.
  unfold onApplicationShutdown. destruct (worker h); simpl; auto.
  all: apply listeners_worker_exit.
Qed.

Lemma listeners_deliver m h l : l ∈ listeners (deliver m h) → l ∈ listeners h.
Proof.
  unfold deliver. destruct (worker h); auto.
  rewrite listeners_on_message. intros [_ Hin]%list_elem_of_filter. exact Hin.
Qed.

Lemma worker_onApplicationShutdown h :
  worker h ≠ Undefined → worker (onApplicationShutdown h) = Terminated.
Proof.
  intros Hw. unfold onApplicationShutdown, worker_exit.
  destruct (worker h) eqn:E; [congruence|reflexivity|exact E].
Qed.

Lemma worker_run n u h : worker (run n u h).2 = worker h.
Proof.
  unfold run, rejected, firstValueFrom, postMessage.
  destruct (worker h) eqn:E; simpl; congruence.
Qed.

Lemma worker_deliver m h : worker (deliver m h) = worker h.
Proof.
  unfold deliver. destruct (worker h) eqn:E; try congruence.
  unfold on_message. rewrite foldl_notify_worker. exact E.
Qed.

(** The worker does not come back: it is running after a step only if it
    was running before, and the step was a call or a message. *)
Lemma worker_step_online h e :
  worker (step h e) = Online →
  worker h = Online ∧ e ≠ Exit ∧ e ≠ Shutdown.
Proof.
  destruct e as [n u|m| |]; simpl.
  - rewrite worker_run. auto.
  - rewrite worker_deliver. auto.
  - unfold worker_exit. destruct (worker h) eqn:E; simpl; congruence.
  - unfold onApplicationShutdown, worker_exit.
    destruct (worker h) eqn:E; simpl; congruence.
Qed.

Lemma worker_exec_online es : ∀ h, worker (exec es h) = Online → worker h = Online.
Proof.
  induction es as [|e es IH]; intros h Hw; [exact Hw|].
  apply IH in Hw. apply worker_step_online in Hw. apply Hw.
Qed.

(** A promise that was settled keeps its outcome. *)
Lemma promises_stable_step h e p o :
  promises h !! p = Some o → o ≠ Pending → promises (step h e) !! p = Some o.
Proof.
  intros Hp Ho. destruct e as [n u|m| |]; simpl.
  - apply promises_run, Hp.
  - unfold deliver. destruct (worker h); try exact Hp.
    unfold on_message. rewrite foldl_notify_promises.
    apply foldl_settle_if_settled; assumption.
  - rewrite promises_worker_exit. exact Hp.
  - rewrite promises_onApplicationShutdown. exact Hp.
Qed.

Lemma promises_stable_exec es : ∀ h p o,
  promises h !! p = Some o → o ≠ Pending → promises (exec es h) !! p = Some o.
Proof.
  induction es as [|e es IH]; intros h p o Hp Ho; [exact Hp|].
  apply IH; [|exact Ho]. apply promises_stable_step; assumption.
Qed.

(** The listener whose filter passes [m] has its promise fulfilled. *)
Lemma on_message_resolves m h l :
  l ∈ listeners h →
  promises h !! promise l = Some Pending →
  msg_id m = uniqueId l →
  promises (on_message m h) !! promise l = Some (Fulfilled (msg_result m)).
Proof.
  intros Hl Hp Hpass. unfold on_message. rewrite foldl_notify_promises.
  apply foldl_settle_if_fired; [exact Hp|].
  apply list_elem_of_fmap_2, list_elem_of_filter. auto.
Qed.

Lemma NoDup_fmap_inj_on {A B} (f : A → B) (l : list A) x y :
  NoDup (f <$> l) → x ∈ l → y ∈ l → f x = f y → x = y.
Proof.
  induction l as [|a l IH]; intros Hnd Hx Hy Hf.
  - apply elem_of_nil in Hx. destruct Hx.
  - rewrite fmap_cons in Hnd. apply NoDup_cons in Hnd as [Ha Hnd].
    apply elem_of_cons in Hx as [->|Hx]; apply elem_of_cons in Hy as [->|Hy].
    + reflexivity.
    + destruct Ha. rewrite Hf. apply list_elem_of_fmap_2, Hy.
    + destruct Ha. rewrite <- Hf. apply list_elem_of_fmap_2, Hx.
    + apply IH; assumption.
Qed.

(** A listener stays subscribed as long as no message passes its filter. *)
Lemma listener_survives m h l :
  wf h → l ∈ listeners h → msg_id m ≠ uniqueId l → l ∈ listeners (on_message m h).
Proof.
  intros (Hl & _) Hin Hne. rewrite listeners_on_message.
  apply list_elem_of_filter. split; [|exact Hin].
  intros (l2 & Heq & [Hpass Hin2]%list_elem_of_filter)%list_elem_of_fmap.
  assert (l = l2) as <- by (eapply NoDup_fmap_inj_on; eassumption).
  exact (Hne Hpass).
Qed.

(** While the worker runs, a listener stays subscribed as long as no
    message passes its filter. *)
Lemma listener_survives_exec l es : ∀ h,
  wf h → l ∈ listeners h →
  worker (exec es h) = Online →
  (∀ m, Reply m ∈ es → msg_id m ≠ uniqueId l) →
  l ∈ listeners (exec es h).
Proof.
  induction es as [|e es IH]; intros h Hwf Hin Hw Hes; [exact Hin|].
  simpl in *. apply IH; [apply wf_step, Hwf| |exact Hw|].
  - apply worker_exec_online, worker_step_online in Hw as (Hw & HnE & HnS).
    destruct e as [n u|m| |]; simpl; [| |congruence..].
    + apply listeners_run, Hin.
    + unfold deliver. rewrite Hw.
      apply listener_survives; [assumption..|]. apply Hes. left.
  - intros m Hm. apply Hes. right. exact Hm.
Qed.

(** After a message was dispatched no listener is left whose filter it
    passes, and none appears unless a later call draws the same id. *)
Lemma on_message_unsubscribes m h l :
  l ∈ listeners (on_message m h) → uniqueId l ≠ msg_id m.
Proof.
  rewrite listeners_on_message.
  intros [Hnf Hin]%list_elem_of_filter Heq. apply Hnf.
  apply list_elem_of_fmap_2, list_elem_of_filter. auto.
Qed.

Lemma listeners_step_inv h e l :
  l ∈ listeners (step h e) →
  l ∈ listeners h ∨ ∃ n, e = Call n (uniqueId l).
Proof.
  destruct e as [n u|m| |]; simpl.
  - unfold run, postMessage, firstValueFrom, rejected.
    destruct (worker h); simpl; auto.
    all: intros [Hin| ->%list_elem_of_singleton]%elem_of_app; [auto|right; eauto].
  - intros Hin%listeners_deliver. auto.
  - intros Hin%listeners_worker_exit. auto.
  - intros Hin%listeners_onApplicationShutdown. auto.
Qed.

Lemma no_listener_exec u es : ∀ h,
  (∀ l, l ∈ listeners h → uniqueId l ≠ u) →
  (∀ n, Call n u ∉ es) →
  ∀ l, l ∈ listeners (exec es h) → uniqueId l ≠ u.
Proof.
  induction es as [|e es IH]; intros h Hh Hes; [exact Hh|].
  simpl. apply IH.
  - intros l [Hin|[n ->]]%listeners_step_inv; [auto|].
    intros <-. apply (Hes n). left.
  - intros n Hin. apply (Hes n). right. exact Hin.
Qed.

Lemma worker_step_defined h e : worker h ≠ Undefined → worker (step h e) ≠ Undefined.
Proof.
  intros Hw. destruct e as [n u|m| |]; simpl.
  - rewrite worker_run. exact Hw.
  - rewrite worker_deliver. exact Hw.
  - unfold worker_exit. destruct (worker h) eqn:E; simpl; congruence.
  - rewrite worker_onApplicationShutdown by exact Hw. discriminate.
Qed.

Lemma worker_exec_defined es : ∀ h, worker h ≠ Undefined → worker (exec es h) ≠ Undefined.
Proof.
  induction es as [|e es IH]; intros h Hw; [exact Hw|].
  apply IH, worker_step_defined, Hw.
Qed.


(** C3.  A reply whose id no pending call is waiting for is dropped:
    dispatching it is a step of the host that returns the very same
    state, so no promise changes, no listener is removed and no
    [resolve] or [reject] is called. *)
Theorem orphan_reply_is_dropped (m : Message) (h : Host) :
  (∀ l, l ∈ listeners h → uniqueId l ≠ msg_id m) →
  step h (Reply m) = h
  ∧ promises (on_message m h) = promises h
  ∧ listeners (on_message m h) = listeners h
  ∧ settled (on_message m h) = settled h.
Proof.
  intros Hm. simpl. unfold deliver. rewrite (on_message_orphan m h Hm).
  repeat split. destruct (worker h); reflexivity.
Qed.

Lemma orphan_reply_is_dropped_witness :
  promises (exec [Call 10 "a"; Call 20 "b"] host0) = [Pending; Pending]
  ∧ step (exec [Call 10 "a"; Call 20 "b"] host0)
         (Reply {| msg_id := "zz"; msg_result := 7 |})
    = exec [Call 10 "a"; Call 20 "b"] host0.
Proof.
  split; [vm_compute; reflexivity|].
  apply (orphan_reply_is_dropped {| msg_id := "zz"; msg_result := 7 |}
           (exec [Call 10 "a"; Call 20 "b"] host0)).
  intros l Hl. vm_compute in Hl. not_in_list Hl.
Defined.

(** C4.  No promise is resolved or rejected twice: in every execution,
    also one that ends with a duplicate reply, the promises on which
    [resolve] or [reject] was called are pairwise distinct.  And once a
    reply carrying some id was dispatched, a later reply with the same id
    changes nothing, as long as [randomUUID] has not drawn that id again
    for a call in between. *)
Theorem settled_at_most_once (es es' : list Event) (m m' : Message) :
  let h := exec (es ++ Reply m :: es') host0 in
  NoDup (settled (step h (Reply m')))
  ∧ (msg_id m' = msg_id m →
     (∀ n, Call n (msg_id m) ∉ es') →
     step h (Reply m') = h).
Proof.
  cbv zeta. split.
  - apply wf_step. auto with host_wf.
  - intros Hid Hes. rewrite exec_app. simpl.
    set (h1 := exec es host0).
    unfold deliver at 1.
    destruct (worker (exec es' (deliver m h1))) eqn:Hw; try reflexivity.
    apply on_message_orphan. rewrite Hid.
    apply no_listener_exec; [|exact Hes].
    apply worker_exec_online in Hw. rewrite worker_deliver in Hw.
    unfold deliver. rewrite Hw.
    intros l. apply on_message_unsubscribes.
Qed.

Lemma settled_at_most_once_witness :
  settled (exec ([Call 10 "a"; Call 3 "b"]
                 ++ Reply {| msg_id := "a"; msg_result := 55 |}
                 :: [Reply {| msg_id := "b"; msg_result := 2 |}; Call 4 "c"])
                host0) = [0; 1]%nat
  ∧ step (exec ([Call 10 "a"; Call 3 "b"]
                ++ Reply {| msg_id := "a"; msg_result := 55 |}
                :: [Reply {| msg_id := "b"; msg_result := 2 |}; Call 4 "c"])
               host0)
         (Reply {| msg_id := "a"; msg_result := 55 |})
    = exec ([Call 10 "a"; Call 3 "b"]
            ++ Reply {| msg_id := "a"; msg_result := 55 |}
            :: [Reply {| msg_id := "b"; msg_result := 2 |}; Call 4 "c"])
           host0.
Proof.
  split; [vm_compute; reflexivity|].
  apply (settled_at_most_once [Call 10 "a"; Call 3 "b"]
           [Reply {| msg_id := "b"; msg_result := 2 |}; Call 4 "c"]
           {| msg_id := "a"; msg_result := 55 |}
           {| msg_id := "a"; msg_result := 55 |}).
  - reflexivity.
  - intros n Hin. not_in_list Hin.
Defined.

(** *** Pending promises *)

Lemma count_calls_cons e es : count_calls (e :: es) = count_calls [e] + count_calls es.
Proof. unfold count_calls, call_ids. simpl. destruct e; reflexivity. Qed.

Lemma listener_waits h l :
  wf h → l ∈ listeners h → waits_for (promise l) (uniqueId l) h.
Proof.
  intros Hwf Hl. split; [apply Hwf, Hl|].
  intros l' Hl' Heq. destruct Hwf as (Hnd & _).
  rewrite (NoDup_fmap_inj_on promise _ l' l Hnd Hl' Hl Heq). reflexivity.
Qed.

Lemma waits_for_run n u' h p u : waits_for p u h → waits_for p u (run n u' h).2.
Proof.
  intros [Hp Hl]. split; [apply promises_run, Hp|].
  intros l. unfold run, postMessage, firstValueFrom, rejected.
  destruct (worker h); simpl; auto.
  all: intros [Hin| ->%list_elem_of_singleton]%elem_of_app; [auto|].
  all: simpl; intros <-; apply lookup_lt_Some in Hp; lia.
Qed.

(** A dispatch leaves a pending promise pending unless the message
    carries the id its listener waits for; then it fulfils the promise. *)
Lemma waits_for_on_message m h p u :
  waits_for p u h →
  waits_for p u (on_message m h)
  ∨ (msg_id m = u
     ∧ promises (on_message m h) !! p = Some (Fulfilled (msg_result m))).
Proof.
  intros [Hp Hl].
  destruct (decide (p ∈ promise <$> filter (passes m) (listeners h))) as [Hin|Hnin].
  - right. split.
    + apply list_elem_of_fmap in Hin as (l & Heq & [Hpass Hin]%list_elem_of_filter).
      rewrite Hpass. apply Hl; [exact Hin|symmetry; exact Heq].
    + unfold on_message. rewrite foldl_notify_promises.
      apply foldl_settle_if_fired; assumption.
  - left. split.
    + unfold on_message.
      rewrite foldl_notify_promises, foldl_settle_if_unfired by exact Hnin.
      exact Hp.
    + intros l. rewrite listeners_on_message.
      intros [_ Hin]%list_elem_of_filter. apply Hl, Hin.
Qed.

Lemma waits_for_step h e p u :
  waits_for p u h →
  waits_for p u (step h e)
  ∨ ∃ m, e = Reply m ∧ msg_id m = u
         ∧ promises (step h e) !! p = Some (Fulfilled (msg_result m)).
Proof.
  intros Hw. destruct e as [n u'|m| |]; simpl.
  - left. apply waits_for_run, Hw.
  - unfold deliver. destruct (worker h); [left; exact Hw| |left; exact Hw].
    destruct (waits_for_on_message m h p u Hw) as [H|[H1 H2]];
      [left; exact H|right; eauto].
  - left. destruct Hw as [Hp Hl].
    split; [rewrite promises_worker_exit; exact Hp|].
    intros l Hin%listeners_worker_exit. apply Hl, Hin.
  - left. destruct Hw as [Hp Hl].
    split; [rewrite promises_onApplicationShutdown; exact Hp|].
    intros l Hin%listeners_onApplicationShutdown. apply Hl, Hin.
Qed.

(** A pending promise is settled only by a message that carries the id
    its listener waits for, and then with the result of that message. *)
Lemma waits_for_exec es : ∀ h p u,
  waits_for p u h →
  waits_for p u (exec es h)
  ∨ ∃ m, Reply m ∈ es ∧ msg_id m = u
         ∧ promises (exec es h) !! p = Some (Fulfilled (msg_result m)).
Proof.
  induction es as [|e es IH]; intros h p u Hw; [left; exact Hw|].
  simpl. destruct (waits_for_step h e p u Hw) as [Hw'|(m & -> & Hid & Hp)].
  - destruct (IH _ _ _ Hw') as [H|(m & Hm & Hid & Hp)]; [left; exact H|].
    right. exists m. split; [right; exact Hm|auto].
  - right. exists m. split; [left|]. split; [exact Hid|].
    apply promises_stable_exec; [exact Hp|discriminate].
Qed.

Lemma pending_stays es h p u :
  waits_for p u h →
  (∀ m, Reply m ∈ es → msg_id m ≠ u) →
  promises (exec es h) !! p = Some Pending.
Proof.
  intros Hw Hes.
  destruct (waits_for_exec es h p u Hw) as [[Hp _]|(m & Hm & Hid & _)];
    [exact Hp|].
  destruct (Hes m Hm Hid).
Qed.

(** While the worker runs, the first message that passes the filter of
    a listener decides the promise of that listener, whatever follows. *)
Lemma first_reply_decides l h a m b :
  wf h → l ∈ listeners h →
  worker (exec a h) = Online →
  (∀ m', Reply m' ∈ a → msg_id m' ≠ uniqueId l) →
  msg_id m = uniqueId l →
  promises (exec (a ++ Reply m :: b) h) !! promise l
  = Some (Fulfilled (msg_result m)).
Proof.
  intros Hwf Hl Hw Ha Hid. rewrite exec_app. simpl.
  apply promises_stable_exec; [|discriminate].
  unfold deliver. rewrite Hw.
  apply on_message_resolves; [|apply (wf_exec a) in Hwf as Hwf'|exact Hid].
  - apply listener_survives_exec; assumption.
  - apply (proj1 (proj2 (proj2 Hwf')) l).
    apply listener_survives_exec; assumption.
Qed.

(** *** After the exit of the worker *)

Lemma step_terminated h e :
  worker h = Terminated →
  worker (step h e) = Terminated
  ∧ posted (step h e) = posted h
  ∧ settled (step h e) = settled h
  ∧ promises (step h e) = promises h ++ replicate (count_calls [e]) Pending.
Proof.
  intros Hw. destruct e as [n u|m| |]; simpl.
  - unfold run, postMessage, firstValueFrom, posted, settled. rewrite Hw. simpl.
    rewrite !omap_app. simpl. rewrite !app_nil_r. auto.
  - unfold deliver. rewrite Hw. rewrite app_nil_r. auto.
  - unfold worker_exit. rewrite Hw. rewrite app_nil_r. auto.
  - unfold onApplicationShutdown, worker_exit, posted, settled. rewrite Hw. simpl.
    rewrite !omap_app. simpl. rewrite !app_nil_r. auto.
Qed.

(** Once the thread of the worker has exited nothing is posted and no
    promise is settled any more; each call adds one pending promise. *)
Lemma exec_terminated es : ∀ h,
  worker h = Terminated →
  worker (exec es h) = Terminated
  ∧ posted (exec es h) = posted h
  ∧ settled (exec es h) = settled h
  ∧ promises (exec es h) = promises h ++ replicate (count_calls es) Pending.
Proof.
  induction es as [|e es IH]; intros h Hw.
  - unfold count_calls. simpl. rewrite app_nil_r. auto.
  - destruct (step_terminated h e Hw) as (Hw1 & Hp1 & Hs1 & Hps1).
    destruct (IH _ Hw1) as (Hw2 & Hp2 & Hs2 & Hps2). simpl.
    rewrite Hw2, Hp2, Hs2, Hps2, Hp1, Hs1, Hps1.
    rewrite (count_calls_cons e es), replicate_add, <- app_assoc. auto.
Qed.

Lemma worker_exec_replies rs : ∀ h, worker (exec (Reply <$> rs) h) = worker h.
Proof.
  induction rs as [|m rs IH]; intros h; [reflexivity|].
  simpl. rewrite IH. apply worker_deliver.
Qed.

Lemma worker_posts_nothing (ts : list Task) : ts ≫= worker_posts = [].
Proof. induction ts as [|t ts IH]; [reflexivity|exact IH]. Qed.

(** C2, as the claim states it, fails: a call is pending, the host
    shuts down, and the call is still pending; the host has posted the
    task, added the listener and terminated the worker, and has rejected
    nothing. *)
Lemma shutdown_rejects_pending_counterexample :
  let h := exec [Call 10 "a"] host0 in
  let h' := onApplicationShutdown h in
  promises h !! 0%nat = Some Pending
  ∧ promises h' !! 0%nat = Some Pending
  ∧ trace h' = [PostMessage {| task_n := 10; task_id := "a" |};
                AddListener {| uniqueId := "a"; promise := 0 |};
                Terminate].
Proof. vm_compute. repeat split. Qed.

(** C2, amended.  When the host shuts down it terminates the worker and
    settles nothing: the promises, and the promises settled so far, are
    as before, so every call pending at shutdown is still pending when
    shutdown completes and none is rejected.  From then on [resolve] and
    [reject] are never called again, whatever happens, so such a call
    stays pending for good. *)
Theorem shutdown_settles_nothing (es es' : list Event) (p : nat) :
  let h := exec es host0 in
  let h' := onApplicationShutdown h in
  promises h !! p = Some Pending →
  worker h' = Terminated
  ∧ promises h' = promises h
  ∧ settled h' = settled h
  ∧ settled (exec es' h') = settled h
  ∧ promises (exec es' h') !! p = Some Pending.
Proof.
  cbv zeta. intros Hp.
  assert (Hw : worker (onApplicationShutdown (exec es host0)) = Terminated).
  { apply worker_onApplicationShutdown, worker_exec_defined. discriminate. }
  destruct (exec_terminated es' _ Hw) as (_ & _ & Hs & Hps).
  split; [exact Hw|].
  split; [apply promises_onApplicationShutdown|].
  split; [apply settled_onApplicationShutdown|].
  split; [rewrite Hs; apply settled_onApplicationShutdown|].
  rewrite Hps, promises_onApplicationShutdown.
  apply lookup_app_l_Some, Hp.
Qed.

Lemma shutdown_settles_nothing_witness :
  promises (exec [Call 10 "a"; Call 3 "b"] host0) !! 1%nat = Some Pending
  ∧ promises (exec [Reply {| msg_id := "b"; msg_result := 2 |}; Call 4 "c"]
                (onApplicationShutdown (exec [Call 10 "a"; Call 3 "b"] host0)))
      !! 1%nat = Some Pending.
Proof.
  split; [vm_compute; reflexivity|].
  apply (shutdown_settles_nothing [Call 10 "a"; Call 3 "b"]
           [Reply {| msg_id := "b"; msg_result := 2 |}; Call 4 "c"] 1).
  vm_compute. reflexivity.
Defined.

(** C5, as the claim states it, fails: in the trace of a call the task
    message is posted first and the listener is added after it, so no
    registration precedes the send. *)
Lemma run_registers_before_sending_counterexample :
  let t := {| task_n := 10; task_id := "a" |} in
  let l := {| uniqueId := "a"; promise := 0 |} in
  let tr := trace (run 10 "a" host0).2 in
  tr = [PostMessage t; AddListener l]
  ∧ ¬ (∃ i j, (i < j)%nat ∧ tr !! i = Some (AddListener l)
                           ∧ tr !! j = Some (PostMessage t)).
Proof.
  cbv zeta. split; [vm_compute; reflexivity|].
  intros (i & j & Hlt & Hi & Hj).
  change (trace (run 10 "a" host0).2)
    with [PostMessage {| task_n := 10; task_id := "a" |};
          AddListener {| uniqueId := "a"; promise := 0 |}] in Hi, Hj.
  destruct j as [|[|j]]; [lia|discriminate Hj|discriminate Hj].
Qed.

(** C5, amended.  In every execution of [run] on a running worker the
    host first posts the task message and then, in the same step of the
    control thread, adds the listener keyed by the new id.  No message is
    dispatched between the two, and a reply that arrives while the worker
    is still running is not lost: whatever calls and other messages came
    in between, the first reply that carries the id fulfils the promise
    of the call with the result of that reply. *)
Theorem run_sends_then_listens (es es' : list Event) (n r : Z) (u : string) :
  let h := exec es host0 in
  let p := (run n u h).1 in
  let h1 := step h (Call n u) in
  worker h = Online →
  trace h1 = trace h ++ [PostMessage {| task_n := n; task_id := u |};
                         AddListener {| uniqueId := u; promise := p |}]
  ∧ promises h1 !! p = Some Pending
  ∧ (worker (exec es' h1) = Online →
     (∀ m, Reply m ∈ es' → msg_id m ≠ u) →
     promises (exec (es' ++ [Reply {| msg_id := u; msg_result := r |}]) h1) !! p
     = Some (Fulfilled r)).
Proof.
  cbv zeta. intros Hw. simpl.
  assert (Hwf : wf (run n u (exec es host0)).2) by auto with host_wf.
  revert Hwf. rewrite (run_online _ _ _ Hw). simpl. intros Hwf.
  set (l := {| uniqueId := u; promise := length (promises (exec es host0)) |}) in *.
  set (h1 := {| worker := Online; listeners := _; promises := _; trace := _ |}) in *.
  assert (Hl : l ∈ listeners h1)
    by (apply elem_of_app; right; apply list_elem_of_singleton; reflexivity).
  split; [reflexivity|].
  split; [apply (proj1 (proj2 (proj2 Hwf)) l Hl)|].
  intros Hw' Hes'.
  exact (first_reply_decides l h1 es' {| msg_id := u; msg_result := r |} []
           Hwf Hl Hw' Hes' eq_refl).
Qed.

Lemma run_sends_then_listens_witness :
  worker (exec [Call 3 "b"] host0) = Online
  ∧ promises (exec ([Call 4 "c"; Reply {| msg_id := "b"; msg_result := 2 |}]
                    ++ [Reply {| msg_id := "a"; msg_result := 55 |}])
                (step (exec [Call 3 "b"] host0) (Call 10 "a")))
      !! (run 10 "a" (exec [Call 3 "b"] host0)).1
    = Some (Fulfilled 55).
Proof.
  split; [vm_compute; reflexivity|].
  apply (run_sends_then_listens [Call 3 "b"]
           [Call 4 "c"; Reply {| msg_id := "b"; msg_result := 2 |}] 10 55 "a").
  - vm_compute. reflexivity.
  - vm_compute. reflexivity.
  - intros m Hin. not_in_list Hin.
Defined.

(** *** Correlation *)

Lemma posted_on_message m h : posted (on_message m h) = posted h.
Proof.
  unfold posted, on_message. rewrite foldl_notify_trace, omap_app.
  induction (filter (passes m) (listeners h)) as [|l ls IH];
    [apply app_nil_r|exact IH].
Qed.




End FibonacciWorkerHostFacts.

(* ===================================================================== *)
(** ** Further properties of fibonacci-worker.host.ts *)
(* ===================================================================== *)

Module FibonacciWorkerHostMore.
Import FibonacciWorkerHost FibonacciWorkerHostView FibonacciWorkerHostFacts.

#[local] Hint Resolve wf_host0 wf_run wf_on_message wf_onApplicationShutdown
  wf_step wf_exec : host_wf.

(** *** The listener of a call *)

Lemma worker_host0_exec es : worker (exec es host0) ≠ Undefined.
Proof. apply worker_exec_defined. discriminate. Qed.

Lemma call_listener es1 n u :
  let h := exec es1 host0 in
  {| uniqueId := u; promise := (run n u h).1 |} ∈ listeners (run n u h).2
  ∧ wf (run n u h).2.
Proof.
  cbv zeta. split; [|auto with host_wf].
  pose proof (worker_host0_exec es1) as Hw.
  unfold run, postMessage, firstValueFrom.
  destruct (worker (exec es1 host0)); [congruence|simpl..];
    apply elem_of_app; right; apply list_elem_of_singleton; reflexivity.
Qed.

Lemma call_waits es1 n u :
  let h := exec es1 host0 in
  waits_for (run n u h).1 u (run n u h).2.
Proof.
  cbv zeta. destruct (call_listener es1 n u) as [Hl Hwf]. cbv zeta in Hl, Hwf.
  exact (listener_waits _ _ Hwf Hl).
Qed.

(** Either no message of an execution passes the filter of a listener,
    or there is a first one. *)
Lemma first_reply_split (u : string) (es : list Event) :
  (∀ m, Reply m ∈ es → msg_id m ≠ u)
  ∨ (∃ a m b, es = a ++ Reply m :: b ∧ msg_id m = u
              ∧ ∀ m', Reply m' ∈ a → msg_id m' ≠ u).
Proof.
  induction es as [|e es IH].
  - left. intros m Hm. apply elem_of_nil in Hm. destruct Hm.
  - assert (Hdec : (∃ m, e = Reply m ∧ msg_id m = u)
                   ∨ ¬ ∃ m, e = Reply m ∧ msg_id m = u).
    { destruct e as [n u'|m| |];
        try (right; intros (m' & Hm' & _); discriminate Hm').
      destruct (decide (msg_id m = u)) as [Hid|Hid]; [left; eauto|right].
      intros (m' & [= <-] & Hm'). exact (Hid Hm'). }
    destruct Hdec as [(m & -> & Hid)|Hne].
    + right. exists [], m, es. split; [reflexivity|]. split; [exact Hid|].
      intros m' Hm'. apply elem_of_nil in Hm'. destruct Hm'.
    + destruct IH as [IH|(a & m0 & b & -> & Hid0 & Ha)].
      * left. intros m' [<-|Hm]%elem_of_cons; [|auto].
        intros Hid. apply Hne. eauto.
      * right. exists (e :: a), m0, b. split; [reflexivity|].
        split; [exact Hid0|].
        intros m' [<-|Hm]%elem_of_cons; [|auto].
        intros Hid. apply Hne. eauto.
Qed.

(** *** Promises are allocated by the calls *)

Lemma length_promises_run n u h :
  length (promises (run n u h).2) = S (length (promises h)).
Proof.
  unfold run, postMessage, firstValueFrom, rejected.
  destruct (worker h); simpl; rewrite length_app; simpl; lia.
Qed.

Lemma length_promises_step h e :
  length (promises (step h e)) = length (promises h) + count_calls [e].
Proof.
  destruct e as [n u|m| |]; simpl.
  - rewrite length_promises_run. unfold count_calls. simpl. lia.
  - unfold deliver. destruct (worker h); rewrite ?length_promises_on_message;
      unfold count_calls; simpl; lia.
  - rewrite promises_worker_exit. unfold count_calls. simpl. lia.
  - rewrite promises_onApplicationShutdown. unfold count_calls. simpl. lia.
Qed.

Lemma length_promises_exec es : ∀ h,
  length (promises (exec es h)) = length (promises h) + count_calls es.
Proof.
  induction es as [|e es IH]; intros h.
  - unfold count_calls. simpl. lia.
  - simpl. rewrite IH, length_promises_step, (count_calls_cons e es). lia.
Qed.

Lemma exec_call n u es h : exec (Call n u :: es) h = exec es (run n u h).2.
Proof. reflexivity. Qed.

Lemma run_handle n u h : (run n u h).1 = length (promises h).
Proof. unfold run, firstValueFrom, postMessage, rejected. destruct (worker h); reflexivity. Qed.

(** A host that has been bootstrapped and whose worker is not running
    has a worker that exited. *)
Lemma worker_stopped es : worker (exec es host0) ≠ Online → worker (exec es host0) = Terminated.
Proof.
  intros Hw. pose proof (worker_host0_exec es).
  destruct (worker (exec es host0)); congruence.
Qed.

(** X2.  The first reply wins.  A call is pending as long as no message
    carrying its id has arrived.  If the worker is still running when the
    first such message arrives, the message fulfils the promise of the
    call with the result it carries, and nothing that happens later
    changes it: not a second message with the same id and another
    result, not further calls, not the exit of the worker or the
    shutdown.  If the worker has exited by then, the message is not
    delivered and the call stays pending. *)
Theorem first_reply_wins (es1 : list Event) (n : Z) (u : string)
    (a : list Event) (m : Message) (b : list Event) :
  let p := (run n u (exec es1 host0)).1 in
  let h := exec (es1 ++ Call n u :: a) host0 in
  let h' := exec (es1 ++ Call n u :: a ++ Reply m :: b) host0 in
  (∀ m', Reply m' ∈ a → msg_id m' ≠ u) →
  msg_id m = u →
  promises h !! p = Some Pending
  ∧ (worker h = Online → promises h' !! p = Some (Fulfilled (msg_result m)))
  ∧ (worker h ≠ Online → promises h' !! p = Some Pending).
Proof.
  cbv zeta. intros Ha Hid.
  destruct (call_listener es1 n u) as [Hl Hwf]. cbv zeta in Hl, Hwf.
  pose proof (call_waits es1 n u) as Hwait. cbv zeta in Hwait.
  assert (Hpend : promises (exec (es1 ++ Call n u :: a) host0)
                    !! (run n u (exec es1 host0)).1 = Some Pending).
  { rewrite exec_app, exec_call. exact (pending_stays a _ _ u Hwait Ha). }
  split; [exact Hpend|]. split.
  - rewrite !exec_app, !exec_call. intros Hw.
    exact (first_reply_decides _ _ a m b Hwf Hl Hw Ha Hid).
  - intros Hw%worker_stopped.
    replace (es1 ++ Call n u :: a ++ Reply m :: b)
      with ((es1 ++ Call n u :: a) ++ Reply m :: b)
      by (rewrite <- app_assoc; reflexivity).
    rewrite (exec_app (es1 ++ Call n u :: a)).
    destruct (exec_terminated (Reply m :: b) _ Hw) as (_ & _ & _ & ->).
    apply lookup_app_l_Some, Hpend.
Qed.

Lemma first_reply_wins_witness :
  promises (exec ([Call 3 "b"] ++ Call 10 "a" ::
                  [Reply {| msg_id := "b"; msg_result := 2 |}]
                  ++ Reply {| msg_id := "a"; msg_result := 55 |}
                  :: [Reply {| msg_id := "a"; msg_result := 99 |}; Shutdown])
                 host0)
    !! (run 10 "a" (exec [Call 3 "b"] host0)).1
  = Some (Fulfilled 55)
  ∧ promises (exec ([Call 3 "b"] ++ Call 10 "a" ::
                    [Exit]
                    ++ Reply {| msg_id := "a"; msg_result := 55 |} :: [])
                   host0)
      !! (run 10 "a" (exec [Call 3 "b"] host0)).1
    = Some Pending.
Proof.
  split.
  - apply (first_reply_wins [Call 3 "b"] 10 "a"
             [Reply {| msg_id := "b"; msg_result := 2 |}]
             {| msg_id := "a"; msg_result := 55 |}
             [Reply {| msg_id := "a"; msg_result := 99 |}; Shutdown]).
    + intros m Hin. not_in_list Hin.
    + reflexivity.
    + vm_compute. reflexivity.
  - apply (first_reply_wins [Call 3 "b"] 10 "a" [Exit]
             {| msg_id := "a"; msg_result := 55 |} []).
    + intros m Hin. not_in_list Hin.
    + reflexivity.
    + vm_compute. discriminate.
Defined.

(** X3.  Whatever messages of the form [{ id, result }] arrive, also
    ones the worker never sent, and whatever ids the calls drew: the
    promise of a call on a bootstrapped host is never rejected by them,
    and it is fulfilled only with the result of a message that arrived
    after the call and carried the id of the call. *)
Theorem fulfilled_only_by_own_id (es1 : list Event) (n : Z) (u : string)
    (es2 : list Event) :
  let p := (run n u (exec es1 host0)).1 in
  let outcome := promises (exec (es1 ++ Call n u :: es2) host0) !! p in
  outcome = Some Pending
  ∨ ∃ m, Reply m ∈ es2 ∧ msg_id m = u ∧ outcome = Some (Fulfilled (msg_result m)).
Proof.
  cbv zeta.
  pose proof (call_waits es1 n u) as Hwait. cbv zeta in Hwait.
  rewrite exec_app, exec_call.
  destruct (waits_for_exec es2 _ _ u Hwait) as [[Hp _]|Hm]; [left; exact Hp|].
  right. exact Hm.
Qed.

(** X4.  When [randomUUID] returns the same id to two calls that are
    both in flight, the first message carrying that id settles both, if
    the worker is still running when it arrives: the two calls hold
    different promises and both are fulfilled with the result of that
    one message. *)
Theorem id_collision_shares_result (es1 : list Event) (n1 n2 : Z) (u : string)
    (es2 es3 : list Event) (m : Message) (es4 : list Event) :
  let p1 := (run n1 u (exec es1 host0)).1 in
  let p2 := (run n2 u (exec (es1 ++ Call n1 u :: es2) host0)).1 in
  let h := exec (es1 ++ Call n1 u :: es2 ++ Call n2 u :: es3 ++ Reply m :: es4) host0 in
  worker (exec (es1 ++ Call n1 u :: es2 ++ Call n2 u :: es3) host0) = Online →
  (∀ m', Reply m' ∈ es2 ++ es3 → msg_id m' ≠ u) →
  msg_id m = u →
  p1 ≠ p2
  ∧ promises h !! p1 = Some (Fulfilled (msg_result m))
  ∧ promises h !! p2 = Some (Fulfilled (msg_result m)).
Proof.
  cbv zeta. intros Hw Hquiet Hid. split; [|split].
  - rewrite !run_handle, exec_app, exec_call.
    rewrite (length_promises_exec es2), length_promises_run. lia.
  - destruct (call_listener es1 n1 u) as [Hl Hwf]. cbv zeta in Hl, Hwf.
    rewrite exec_app, exec_call in Hw |- *.
    replace (es2 ++ Call n2 u :: es3 ++ Reply m :: es4)
      with ((es2 ++ Call n2 u :: es3) ++ Reply m :: es4)
      by (rewrite <- app_assoc; reflexivity).
    apply (first_reply_decides _ _ _ m es4 Hwf Hl Hw); [|exact Hid].
    intros m' [Hm|[Hm|Hm]%elem_of_cons]%elem_of_app; [|discriminate|];
      apply Hquiet, elem_of_app; auto.
  - destruct (call_listener (es1 ++ Call n1 u :: es2) n2 u) as [Hl Hwf].
    cbv zeta in Hl, Hwf.
    revert Hw.
    replace (es1 ++ Call n1 u :: es2 ++ Call n2 u :: es3 ++ Reply m :: es4)
      with ((es1 ++ Call n1 u :: es2) ++ Call n2 u :: es3 ++ Reply m :: es4)
      by (rewrite <- app_assoc; reflexivity).
    replace (es1 ++ Call n1 u :: es2 ++ Call n2 u :: es3)
      with ((es1 ++ Call n1 u :: es2) ++ Call n2 u :: es3)
      by (rewrite <- app_assoc; reflexivity).
    rewrite !(exec_app (es1 ++ Call n1 u :: es2)), !exec_call. intros Hw.
    apply (first_reply_decides _ _ es3 m es4 Hwf Hl Hw); [|exact Hid].
    intros m' Hm. apply Hquiet, elem_of_app. auto.
Qed.

Lemma id_collision_shares_result_witness :
  promises (exec ([] ++ Call 10 "a" :: [] ++ Call 3 "a" :: []
                  ++ Reply {| msg_id := "a"; msg_result := 55 |} :: []) host0)
  = [Fulfilled 55; Fulfilled 55]
  ∧ promises (exec ([] ++ Call 10 "a" :: [] ++ Call 3 "a" :: []
                    ++ Reply {| msg_id := "a"; msg_result := 55 |} :: []) host0)
      !! (run 3 "a" (exec ([] ++ Call 10 "a" :: []) host0)).1
    = Some (Fulfilled 55).
Proof.
  split; [vm_compute; reflexivity|].
  apply (id_collision_shares_result [] 10 3 "a" [] []
           {| msg_id := "a"; msg_result := 55 |} []).
  - vm_compute. reflexivity.
  - intros m Hin. not_in_list Hin.
  - reflexivity.
Defined.

(** *** Listeners and pending promises *)

Lemma foldl_settle_if_pending_inv m ls ps p :
  foldl (settle_if m) ps ls !! p = Some Pending →
  ps !! p = Some Pending ∧ p ∉ promise <$> filter (passes m) ls.
Proof.
  intros Hp.
  destruct (decide (p ∈ promise <$> filter (passes m) ls)) as [Hin|Hnin].
  - exfalso. destruct (ps !! p) as [o|] eqn:Ho.
    + destruct o as [|v|e].
      * rewrite (foldl_settle_if_fired m ls ps p Ho Hin) in Hp. discriminate.
      * rewrite (foldl_settle_if_settled m ls ps p _ Ho) in Hp; discriminate.
      * rewrite (foldl_settle_if_settled m ls ps p _ Ho) in Hp; discriminate.
    + apply lookup_ge_None in Ho. apply lookup_lt_Some in Hp.
      rewrite foldl_settle_if_length in Hp. lia.
  - rewrite foldl_settle_if_unfired in Hp by exact Hnin. auto.
Qed.

Lemma covered_host0 : covered host0.
Proof. intros p Hp. unfold host0 in Hp. simpl in Hp. destruct p; discriminate. Qed.

Lemma covered_run n u h : covered h → covered (run n u h).2.
Proof.
  intros Hc p Hp. revert Hp.
  unfold run, postMessage, firstValueFrom, rejected.
  destruct (worker h); simpl; intros Hp.
  all: apply lookup_app_Some in Hp as [Hp|[Hge Hp]].
  all: try (rewrite ?fmap_app; try (apply elem_of_app; left); apply Hc, Hp).
  - destruct (p - length (promises h))%nat; discriminate.
  - rewrite fmap_app. apply elem_of_app. right. simpl.
    destruct (p - length (promises h))%nat eqn:E; [|destruct n0; discriminate].
    apply list_elem_of_singleton. lia.
  - rewrite fmap_app. apply elem_of_app. right. simpl.
    destruct (p - length (promises h))%nat eqn:E; [|destruct n0; discriminate].
    apply list_elem_of_singleton. lia.
Qed.

Lemma covered_on_message m h : covered h → covered (on_message m h).
Proof.
  intros Hc p Hp. unfold on_message in Hp. rewrite foldl_notify_promises in Hp.
  apply foldl_settle_if_pending_inv in Hp as [Hp Hnf].
  apply Hc in Hp. apply list_elem_of_fmap in Hp as (l & -> & Hl).
  apply list_elem_of_fmap_2. rewrite listeners_on_message.
  apply list_elem_of_filter. auto.
Qed.

(** While the worker runs every pending promise keeps its listener. *)
Lemma covered_exec es : ∀ h,
  covered h → worker (exec es h) = Online → covered (exec es h).
Proof.
  induction es as [|e es IH]; intros h Hc Hw; [exact Hc|].
  simpl in *. apply IH; [|exact Hw].
  apply worker_exec_online, worker_step_online in Hw as (Hw & HnE & HnS).
  destruct e as [n u|m| |]; simpl; [| |congruence..].
  - apply covered_run, Hc.
  - unfold deliver. rewrite Hw. apply covered_on_message, Hc.
Qed.

(** X5.  In every state the host reaches, the listeners on the worker
    belong to pairwise distinct promises and each of these promises is
    still pending: settling a call always removes its listener.  While
    the worker runs the listeners are exactly the pending calls; when its
    thread exits, by itself or at the shutdown, the pending calls lose
    their listeners. *)
Theorem listeners_are_the_pending_calls (es : list Event) :
  let h := exec es host0 in
  NoDup (promise <$> listeners h)
  ∧ (∀ p, p ∈ promise <$> listeners h → promises h !! p = Some Pending)
  ∧ (worker h = Online →
     (∀ p, promises h !! p = Some Pending → p ∈ promise <$> listeners h)
     ∧ listeners (step h Exit) = []
     ∧ listeners (step h Shutdown) = []).
Proof.
  cbv zeta.
  assert (Hwf : wf (exec es host0)) by auto with host_wf.
  split; [apply Hwf|]. split.
  - intros p (l & -> & Hl)%list_elem_of_fmap. apply Hwf, Hl.
  - intros Hw. split; [apply covered_exec; [apply covered_host0|exact Hw]|].
    simpl. unfold onApplicationShutdown, worker_exit. rewrite Hw. auto.
Qed.

Lemma listeners_are_the_pending_calls_witness :
  listeners (exec [Call 10 "a"; Call 3 "b";
                   Reply {| msg_id := "a"; msg_result := 55 |}] host0)
  = [ {| uniqueId := "b"; promise := 1 |} ]
  ∧ promises (exec [Call 10 "a"; Call 3 "b";
                    Reply {| msg_id := "a"; msg_result := 55 |}] host0)
    = [Fulfilled 55; Pending]
  ∧ listeners (step (exec [Call 10 "a"; Call 3 "b";
                           Reply {| msg_id := "a"; msg_result := 55 |}] host0)
                    Shutdown) = [].
Proof.
  split; [vm_compute; reflexivity|]. split; [vm_compute; reflexivity|].
  apply (listeners_are_the_pending_calls
           [Call 10 "a"; Call 3 "b"; Reply {| msg_id := "a"; msg_result := 55 |}]).
  vm_compute. reflexivity.
Defined.

Lemma filter_ext_in {A} (P Q : A → Prop) `{!∀ x, Decision (P x)}
    `{!∀ x, Decision (Q x)} (l : list A) :
  (∀ x, x ∈ l → P x ↔ Q x) → filter P l = filter Q l.
Proof.
  induction l as [|x l IH]; intros Hext; [reflexivity|].
  rewrite !filter_cons.
  rewrite IH by (intros y Hy; apply Hext; right; exact Hy).
  destruct (decide (P x)) as [HP|HP]; destruct (decide (Q x)) as [HQ|HQ];
    try reflexivity; exfalso; apply (Hext x) in HP || apply HP, (Hext x), HQ;
    try (left; fail); tauto || constructor.
Qed.

(** X6.  A message is delivered to every listener at once.  In a state
    the host can reach, dispatching [m] fulfils the promise of each
    listener whose id is that of [m] with the result of [m] and removes
    exactly those listeners; the other listeners stay subscribed with
    their promises pending, and no other promise changes. *)
Theorem dispatch_settles_matching_listeners (es : list Event) (m : Message) :
  let h := exec es host0 in
  listeners (on_message m h)
  = filter (λ l, msg_id m ≠ uniqueId l) (listeners h)
  ∧ (∀ l, l ∈ listeners h → msg_id m = uniqueId l →
       promises (on_message m h) !! promise l = Some (Fulfilled (msg_result m)))
  ∧ (∀ l, l ∈ listeners h → msg_id m ≠ uniqueId l →
       promises (on_message m h) !! promise l = Some Pending)
  ∧ (∀ p, p ∉ promise <$> listeners h →
       promises (on_message m h) !! p = promises h !! p).
Proof.
  cbv zeta.
  assert (Hwf : wf (exec es host0)) by auto with host_wf.
  set (h := exec es host0) in *.
  split; [|split; [|split]].
  - rewrite listeners_on_message. apply filter_ext_in.
    intros l Hl. split.
    + intros Hnf Hpass. apply Hnf.
      apply list_elem_of_fmap_2, list_elem_of_filter. auto.
    + intros Hne (l2 & Heq & [Hpass Hl2]%list_elem_of_filter)%list_elem_of_fmap.
      assert (l = l2) as <-; [|exact (Hne Hpass)].
      eapply NoDup_fmap_inj_on; [apply Hwf|eassumption..].
  - intros l Hl Hpass. apply on_message_resolves; [exact Hl| |exact Hpass].
    apply Hwf, Hl.
  - intros l Hl Hne.
    apply (wf_on_message m) in Hwf as Hwf'. apply Hwf'.
    apply listener_survives; assumption.
  - intros p Hp. unfold on_message. rewrite foldl_notify_promises.
    apply foldl_settle_if_unfired.
    intros (l & -> & [_ Hl]%list_elem_of_filter)%list_elem_of_fmap.
    apply Hp, list_elem_of_fmap_2, Hl.
Qed.

(** *** What the worker is sent *)

Lemma posted_run_online n u h :
  worker h = Online →
  posted (run n u h).2 = posted h ++ [{| task_n := n; task_id := u |}].
Proof.
  intros Hw. rewrite (run_online _ _ _ Hw). unfold posted. simpl.
  rewrite omap_app. auto.
Qed.

Lemma posted_exec_online es : ∀ h,
  worker (exec es h) = Online →
  posted (exec es h) = posted h ++ omap task_of es.
Proof.
  induction es as [|e es IH]; intros h Hw.
  - simpl. rewrite app_nil_r. auto.
  - simpl in *. rewrite (IH _ Hw).
    apply worker_exec_online, worker_step_online in Hw as (Hw & HnE & HnS).
    destruct e as [n u|m| |]; simpl; [| |congruence..].
    + rewrite (posted_run_online n u h Hw), <- app_assoc. reflexivity.
    + unfold deliver. rewrite Hw, posted_on_message. reflexivity.
Qed.

(** X7.  While the thread of the worker runs, the worker is sent exactly
    one task per call, carrying the input and the id of that call, in the
    order of the calls; the arrival of messages posts nothing.  From the
    moment the thread exits, by itself or at the shutdown, nothing more
    is posted, although [run] still accepts calls and hands out a promise
    for each. *)
Theorem posted_tasks_are_the_calls (es1 : list Event) (e : Event) (es2 : list Event) :
  worker (exec es1 host0) = Online →
  e = Exit ∨ e = Shutdown →
  posted (exec es1 host0) = omap task_of es1
  ∧ posted (exec (es1 ++ e :: es2) host0) = omap task_of es1
  ∧ length (promises (exec (es1 ++ e :: es2) host0))
    = count_calls (es1 ++ e :: es2).
Proof.
  intros Hw He.
  pose proof (posted_exec_online es1 host0 Hw) as Hp.
  split; [exact Hp|]. split.
  - rewrite exec_app. simpl.
    assert (Hw' : worker (step (exec es1 host0) e) = Terminated
                  ∧ posted (step (exec es1 host0) e) = posted (exec es1 host0)).
    { destruct He as [-> | ->]; simpl;
        unfold onApplicationShutdown, worker_exit, posted; rewrite Hw; simpl;
        rewrite ?omap_app, ?app_nil_r; auto. }
    destruct Hw' as [Hw' Hp'].
    destruct (exec_terminated es2 _ Hw') as (_ & -> & _). rewrite Hp'. exact Hp.
  - rewrite length_promises_exec. reflexivity.
Qed.

Lemma posted_tasks_are_the_calls_witness :
  posted (exec ([Call 10 "a"; Reply {| msg_id := "a"; msg_result := 55 |}; Call 3 "b"]
                ++ Exit :: [Call 7 "c"; Shutdown; Call 8 "d"]) host0)
  = [ {| task_n := 10; task_id := "a" |}; {| task_n := 3; task_id := "b" |} ]
  ∧ length (promises (exec ([Call 10 "a"; Reply {| msg_id := "a"; msg_result := 55 |};
                             Call 3 "b"] ++ Exit :: [Call 7 "c"; Shutdown; Call 8 "d"])
                           host0))
    = 4.
Proof.
  pose proof (posted_tasks_are_the_calls
                [Call 10 "a"; Reply {| msg_id := "a"; msg_result := 55 |}; Call 3 "b"]
                Exit [Call 7 "c"; Shutdown; Call 8 "d"]) as H.
  destruct H as (_ & H2 & H3).
  - vm_compute. reflexivity.
  - left. reflexivity.
  - split; [exact H2|exact H3].
Defined.

(** X8.  A call made after the thread of the worker has exited, be it
    by itself or at the shutdown, is never settled.  [run] still returns
    a promise, but the task is not posted and nothing is delivered any
    more, so the promise stays pending in every continuation. *)
Theorem call_after_shutdown_never_settles (es1 : list Event) (n : Z)
    (u : string) (es2 : list Event) :
  let es := es1 ++ Call n u :: es2 in
  worker (exec es1 host0) = Terminated →
  posted (exec es host0) = posted (exec es1 host0)
  ∧ promises (exec es host0) !! (run n u (exec es1 host0)).1 = Some Pending.
Proof.
  cbv zeta. intros Hw. rewrite exec_app.
  destruct (exec_terminated (Call n u :: es2) _ Hw) as (_ & Hp & _ & Hps).
  split; [exact Hp|].
  rewrite Hps, run_handle, (count_calls_cons (Call n u) es2).
  rewrite lookup_app_r by lia. rewrite Nat.sub_diag. reflexivity.
Qed.

Lemma call_after_shutdown_never_settles_witness :
  worker (exec [Call 3 "b"; Shutdown] host0) = Terminated
  ∧ promises (exec ([Call 3 "b"; Shutdown] ++ Call 10 "a" ::
                    [Reply {| msg_id := "b"; msg_result := 2 |};
                     Reply {| msg_id := "a"; msg_result := 55 |}; Call 1 "c"]) host0)
      !! (run 10 "a" (exec [Call 3 "b"; Shutdown] host0)).1
    = Some Pending.
Proof.
  split; [vm_compute; reflexivity|].
  apply (call_after_shutdown_never_settles [Call 3 "b"; Shutdown] 10 "a"
           [Reply {| msg_id := "b"; msg_result := 2 |};
            Reply {| msg_id := "a"; msg_result := 55 |}; Call 1 "c"]).
  vm_compute. reflexivity.
Defined.

(** X9.  On a host that was never bootstrapped every call of [run] is
    rejected with the TypeError of the access to the undefined worker:
    however many calls, messages and shutdowns follow one another, nothing
    is posted, no listener is added, and the promises are one rejected
    promise per call. *)
Theorem run_before_bootstrap_rejects (es : list Event) :
  let h := exec es new_host in
  worker h = Undefined
  ∧ posted h = []
  ∧ listeners h = []
  ∧ promises h = replicate (count_calls es) (Rejected TypeError).
Proof.
  cbv zeta.
  assert (Hgen : ∀ es h, worker h = Undefined → posted h = [] → listeners h = [] →
            worker (exec es h) = Undefined ∧ posted (exec es h) = []
            ∧ listeners (exec es h) = []
            ∧ promises (exec es h)
              = promises h ++ replicate (count_calls es) (Rejected TypeError)).
  { clear es. induction es as [|e es IH]; intros h Hw Hp Hl.
    - unfold count_calls. simpl. rewrite app_nil_r. auto.
    - destruct e as [n u|m| |]; simpl.
      + destruct (IH (run n u h).2) as (Hw' & Hp' & Hl' & Hps');
          try (unfold run, rejected, posted in *; rewrite Hw; simpl;
               rewrite ?omap_app, ?Hp; auto; fail).
        repeat split; try assumption. rewrite Hps'.
        unfold run, rejected. rewrite Hw. simpl.
        rewrite <- app_assoc. reflexivity.
      + assert (Hm : deliver m h = h)
          by (unfold deliver; rewrite Hw; reflexivity).
        rewrite Hm. rewrite (count_calls_cons (Reply m) es). apply IH; assumption.
      + assert (Hs : worker_exit h = h)
          by (unfold worker_exit; rewrite Hw; reflexivity).
        rewrite Hs. rewrite (count_calls_cons Exit es). apply IH; assumption.
      + assert (Hs : onApplicationShutdown h = h)
          by (unfold onApplicationShutdown; rewrite Hw; reflexivity).
        rewrite Hs. rewrite (count_calls_cons Shutdown es). apply IH; assumption. }
  apply (Hgen es new_host); reflexivity.
Qed.

(** *** Draining *)

Lemma count_calls_replies (ms : list Message) : count_calls (Reply <$> ms) = 0%nat.
Proof.
  unfold count_calls, call_ids. induction ms as [|m ms IH]; [reflexivity|exact IH].
Qed.

(** While the worker runs, every listener waits for a task that was
    posted. *)
Lemma listeners_have_tasks es : ∀ h,
  (∀ l, l ∈ listeners h → ∃ t, t ∈ posted h ∧ task_id t = uniqueId l) →
  worker (exec es h) = Online →
  ∀ l, l ∈ listeners (exec es h) →
       ∃ t, t ∈ posted (exec es h) ∧ task_id t = uniqueId l.
Proof.
  induction es as [|e es IH]; intros h Hq Hw; [exact Hq|].
  simpl in *. apply IH; [|exact Hw].
  apply worker_exec_online, worker_step_online in Hw as (Hw & HnE & HnS).
  destruct e as [n u|m| |]; simpl; [| |congruence..].
  - intros l Hl. rewrite (posted_run_online n u h Hw).
    revert Hl. rewrite (run_online _ _ _ Hw). simpl.
    intros [Hl| ->%list_elem_of_singleton]%elem_of_app.
    + destruct (Hq l Hl) as (t & Ht & Hid). exists t.
      split; [apply elem_of_app; left; exact Ht|exact Hid].
    + exists {| task_n := n; task_id := u |}.
      split; [apply elem_of_app; right; left|reflexivity].
  - unfold deliver. rewrite Hw.
    intros l Hl. rewrite posted_on_message. apply Hq.
    rewrite listeners_on_message in Hl.
    apply list_elem_of_filter in Hl as [_ Hl]. exact Hl.
Qed.

(** X19.  The host leaves no call behind that was answered.  While the
    worker runs, once a message carrying the id of each task posted so
    far has arrived, in any order and whatever else arrived with them,
    no promise is pending and no listener is subscribed any more; the
    worker module as it stands posts no such message. *)
Theorem all_calls_settle_once_answered (es : list Event) (rs : list Message) :
  let h := exec es host0 in
  let h' := exec (Reply <$> rs) h in
  worker h = Online →
  (∀ t, t ∈ posted h → task_id t ∈ msg_id <$> rs) →
  listeners h' = []
  ∧ length (promises h') = count_calls es
  ∧ (∀ p o, promises h' !! p = Some o → o ≠ Pending)
  ∧ (posted h ≠ [] → rs ≠ posted h ≫= worker_posts).
Proof.
  cbv zeta. intros Hw Hrs.
  set (h := exec es host0) in *.
  assert (Hwf : wf h) by (subst h; auto with host_wf).
  assert (Hwf' : wf (exec (Reply <$> rs) h)) by auto with host_wf.
  assert (Hfulfilled : ∀ l, l ∈ listeners h →
            ∃ v, promises (exec (Reply <$> rs) h) !! promise l = Some (Fulfilled v)).
  { intros l Hl.
    destruct (listeners_have_tasks es host0) with (l := l)
      as (t & Ht & Hid); [intros l' Hl'; apply elem_of_nil in Hl'; destruct Hl'
                         |exact Hw|exact Hl|].
    destruct (first_reply_split (uniqueId l) (Reply <$> rs))
      as [Hnone|(a & m & b & Hsplit & Hm & Ha)].
    - exfalso. apply Hrs in Ht. rewrite Hid in Ht.
      apply list_elem_of_fmap in Ht as (m & Hm & Hin).
      apply (Hnone m); [apply list_elem_of_fmap_2, Hin|symmetry; exact Hm].
    - exists (msg_result m). rewrite Hsplit.
      apply first_reply_decides; try assumption.
      pose proof (worker_exec_replies rs h) as Hwr.
      rewrite Hsplit, exec_app, Hw in Hwr.
      apply worker_exec_online in Hwr. exact Hwr. }
  assert (Hnone : ∀ p o, promises (exec (Reply <$> rs) h) !! p = Some o → o ≠ Pending).
  { intros p o Hp ->.
    destruct (promises h !! p) as [o|] eqn:Ho.
    - destruct o as [|v|e].
      + apply (covered_exec es host0 covered_host0 Hw) in Ho.
        apply list_elem_of_fmap in Ho as (l & -> & Hl).
        destruct (Hfulfilled l Hl) as [v Hv]. congruence.
      + rewrite (promises_stable_exec (Reply <$> rs) h p _ Ho) in Hp; discriminate.
      + rewrite (promises_stable_exec (Reply <$> rs) h p _ Ho) in Hp; discriminate.
    - apply lookup_ge_None in Ho. apply lookup_lt_Some in Hp.
      rewrite length_promises_exec in Hp.
      rewrite count_calls_replies in Hp. lia. }
  split; [|split; [|split; [exact Hnone|]]].
  - destruct (listeners (exec (Reply <$> rs) h)) as [|l ls] eqn:Hls; [reflexivity|exfalso].
    assert (Hl : l ∈ listeners (exec (Reply <$> rs) h)) by (rewrite Hls; left).
    apply Hwf' in Hl as [Hp _]. exact (Hnone _ _ Hp eq_refl).
  - rewrite length_promises_exec. subst h.
    rewrite count_calls_replies, length_promises_exec. simpl. lia.
  - intros Hposted Heq. rewrite worker_posts_nothing in Heq. subst rs.
    destruct (posted h) as [|t ts]; [congruence|].
    specialize (Hrs t ltac:(left)). apply elem_of_nil in Hrs. exact Hrs.
Qed.

Lemma all_calls_settle_once_answered_witness :
  promises (exec (Reply <$> [ {| msg_id := "c"; msg_result := 13 |};
                              {| msg_id := "zz"; msg_result := 0 |};
                              {| msg_id := "a"; msg_result := 55 |};
                              {| msg_id := "b"; msg_result := 9 |} ])
                 (exec [Call 10 "a"; Call 3 "b";
                        Reply {| msg_id := "b"; msg_result := 2 |};
                        Call 7 "c"] host0))
  = [Fulfilled 55; Fulfilled 2; Fulfilled 13]
  ∧ listeners (exec (Reply <$> [ {| msg_id := "c"; msg_result := 13 |};
                                 {| msg_id := "zz"; msg_result := 0 |};
                                 {| msg_id := "a"; msg_result := 55 |};
                                 {| msg_id := "b"; msg_result := 9 |} ])
                    (exec [Call 10 "a"; Call 3 "b";
                           Reply {| msg_id := "b"; msg_result := 2 |};
                           Call 7 "c"] host0))
    = [].
Proof.
  split; [vm_compute; reflexivity|].
  apply (all_calls_settle_once_answered
           [Call 10 "a"; Call 3 "b"; Reply {| msg_id := "b"; msg_result := 2 |};
            Call 7 "c"]
           [ {| msg_id := "c"; msg_result := 13 |};
             {| msg_id := "zz"; msg_result := 0 |};
             {| msg_id := "a"; msg_result := 55 |};
             {| msg_id := "b"; msg_result := 9 |} ]).
  - vm_compute. reflexivity.
  - intros t Ht. vm_compute in Ht.
    repeat (apply elem_of_cons in Ht as [->|Ht];
            [apply (bool_decide_unpack _); vm_compute; exact I|]).
    apply elem_of_nil in Ht. destruct Ht.
Defined.

End FibonacciWorkerHostMore.

(* ===================================================================== *)
(** ** Further properties of fibonacci.worker.ts *)
(* ===================================================================== *)

Module FibonacciWorkerMore.
Import FibonacciWorker FibonacciWorkerCost FibonacciWorkerFacts.
Local Open Scope Z_scope.


Lemma fib_monotone_Z n m : 0 <= n <= m -> fib n <= fib m.
Proof.
  intros Hnm.
  rewrite <- (Z2Nat.id n), <- (Z2Nat.id m) by lia.
  apply fib_monotone. lia.
Qed.


Lemma fib_recurrence n : 0 <= n -> fib (n + 2) = fib (n + 1) + fib n.
Proof.
  intros Hn. rewrite (fib_unfold (n + 2)).
  destruct (Z.ltb_spec (n + 2) 2) as [Hlt|_]; [lia|].
  replace (n + 2 - 1) with (n + 1) by lia.
  replace (n + 2 - 2) with n by lia. reflexivity.
Qed.

Lemma fib_1 : fib 1 = 1.
Proof. reflexivity. Qed.

Lemma fib_strictly_increasing n m : 2 <= n -> n < m -> fib n < fib m.
Proof.
  intros Hn Hlt.
  pose proof (fib_monotone_Z (n + 1) m ltac:(lia)) as Hm.
  pose proof (fib_recurrence (n - 1) ltac:(lia)) as Hrec.
  replace (n - 1 + 2) with (n + 1) in Hrec by lia.
  replace (n - 1 + 1) with n in Hrec by lia.
  pose proof (fib_monotone_Z 1 (n - 1) ltac:(lia)) as H1.
  rewrite fib_1 in H1. lia.
Qed.

(** What an evaluation on binary64 returned at an input up to 78. *)
Lemma fib_binary64_returned fuel n r :
  0 <= n <= 78 →
  fib_binary64 fuel (number n) = Some r →
  r = number (fib n) ∧ integer r = Some (fib n).
Proof.
  intros Hn Hr.
  assert (Hs : is_Some (fib_binary64 fuel (number n))) by (rewrite Hr; eauto).
  apply fib_binary64_depth in Hs; [|unfold checked; lia].
  rewrite (fib_binary64_exact fuel n Hn Hs) in Hr. injection Hr as <-.
  split; [reflexivity|]. apply number_fib_exact, Hn.
Qed.

Lemma compares_exactly_checked :
  forallb (λ i, forallb (compares_exactly i) (seq 0 79)) (seq 0 79) = true.
Proof. vm_compute. reflexivity. Qed.

Lemma compares_exactly_spec n m :
  0 <= n <= 78 → 0 <= m <= 78 →
  (number (fib n) <? number (fib m))%float = (fib n <? fib m).
Proof.
  intros Hn Hm. pose proof compares_exactly_checked as Ht.
  rewrite forallb_forall in Ht. specialize (Ht (Z.to_nat n)).
  assert (Hi : In (Z.to_nat n) (seq 0 79)) by (apply in_seq; lia).
  apply Ht in Hi. rewrite forallb_forall in Hi. specialize (Hi (Z.to_nat m)).
  assert (Hj : In (Z.to_nat m) (seq 0 79)) by (apply in_seq; lia).
  apply Hi in Hj. unfold compares_exactly in Hj. cbv zeta in Hj.
  rewrite !fib_pair_fib, !Z2Nat.id in Hj by lia. cbn [fst] in Hj.
  apply Bool.eqb_prop in Hj. exact Hj.
Qed.

(** X12.  On the inputs from 0 to 78 the numbers [fib] returns are the
    integers of the recursion on integers, and they are ordered as these
    integers: [fib] is monotone there, and strictly increasing from the
    input 2 on, so that distinct inputs from 2 on get distinct results. *)
Theorem fib_is_monotone (n m : Z) (fuel_n fuel_m : nat) (a b : float) :
  0 <= n <= 78 → 0 <= m <= 78 →
  fib_binary64 fuel_n (number n) = Some a →
  fib_binary64 fuel_m (number m) = Some b →
  integer a = Some (fib n) ∧ integer b = Some (fib m)
  ∧ (n <= m → (b <? a)%float = false)
  ∧ (2 <= n → n < m → (a <? b)%float = true).
Proof.
  intros Hn Hm Ha Hb.
  destruct (fib_binary64_returned _ _ _ Hn Ha) as [-> Hia].
  destruct (fib_binary64_returned _ _ _ Hm Hb) as [-> Hib].
  split; [exact Hia|]. split; [exact Hib|]. split.
  - intros Hle. rewrite (compares_exactly_spec m n Hm Hn).
    apply Z.ltb_ge, fib_monotone_Z. lia.
  - intros H2 Hlt. rewrite (compares_exactly_spec n m Hn Hm).
    apply Z.ltb_lt, fib_strictly_increasing; assumption.
Qed.

Lemma fib_is_monotone_witness :
  fib_binary64 5 (number 5) = Some (number 5)
  ∧ fib_binary64 9 (number 6) = Some (number 8)
  ∧ (number 5 <? number 8)%float = true.
Proof.
  assert (H5 : fib_binary64 5 (number 5) = Some (number 5)) by (vm_compute; reflexivity).
  assert (H6 : fib_binary64 9 (number 6) = Some (number 8)) by (vm_compute; reflexivity).
  split; [exact H5|]. split; [exact H6|].
  apply (fib_is_monotone 5 6 5 9 (number 5) (number 8)); (exact H5 || exact H6 || lia).
Defined.

(** X13.  On the inputs from 0 to 78 [fib] returns the Fibonacci
    numbers, as integers: the sequence that starts with 0 and 1, in which
    every further value is the sum of the two before it, and which the
    iteration carrying a pair of consecutive values along computes.  At
    the input 79 it no longer does: the sum is rounded, and the number
    returned is the integer next to the Fibonacci number. *)
Theorem fib_is_the_fibonacci_sequence (n : Z) (fuel : nat) :
  0 <= n <= 78 → Z.max 1 n <= Z.of_nat fuel →
  (∃ r, fib_binary64 fuel (number n) = Some r
        ∧ integer r = Some (fib_pair (Z.to_nat n)).1)
  ∧ (fib_pair 0).1 = 0 ∧ (fib_pair 1).1 = 1
  ∧ (fib_pair (Z.to_nat n + 2)).1
    = (fib_pair (Z.to_nat n + 1)).1 + (fib_pair (Z.to_nat n)).1
  ∧ (∃ r, fib_binary64 79 (number 79) = Some r
          ∧ integer r = Some 14472334024676220
          ∧ (fib_pair 79).1 = 14472334024676221).
Proof.
  intros Hn Hfuel. split; [|split; [reflexivity|split; [reflexivity|split]]].
  - exists (number (fib n)). split; [apply fib_binary64_exact; assumption|].
    rewrite fib_pair_fib, Z2Nat.id by lia. apply number_fib_exact, Hn.
  - rewrite !fib_pair_fib. cbn [fst].
    rewrite !Nat2Z.inj_add, Z2Nat.id by lia.
    apply (fib_recurrence n). lia.
  - exists (number (fib 78) + number (fib 77))%float. split; [|split].
    + destruct (descends_spec 79) as (_ & H0 & H1 & H2); [unfold checked; lia|].
      change 79%nat with (S 78). rewrite fib_binary64_rec, H1, H2 by exact H0.
      change (79 - 1) with 78. change (79 - 2) with 77.
      rewrite (fib_binary64_exact 78 78), (fib_binary64_exact 78 77) by lia.
      reflexivity.
    + pose proof (fib_pair_fib 77) as Hp. revert Hp.
      change (Z.of_nat 77 + 1) with 78. change (Z.of_nat 77) with 77.
      generalize (fib 77) (fib 78). intros x y Hp.
      vm_compute in Hp. injection Hp as <- <-. vm_compute. reflexivity.
    + vm_compute. reflexivity.
Qed.

Lemma fib_is_the_fibonacci_sequence_witness :
  (∃ r, fib_binary64 30 (number 30) = Some r
        ∧ integer r = Some (fib_pair (Z.to_nat 30)).1)
  ∧ (fib_pair (Z.to_nat 30)).1 = 832040.
Proof.
  split; [|vm_compute; reflexivity].
  apply (fib_is_the_fibonacci_sequence 30 30); lia.
Defined.

Lemma fib_traced_base fuel x :
  (x <? 2)%float = true → fib_traced (S fuel) x = Some (x, 1).
Proof. intros Hx. cbn [fib_traced]. rewrite Hx. reflexivity. Qed.

Lemma fib_traced_rec fuel x :
  (x <? 2)%float = false →
  fib_traced (S fuel) x =
    match fib_traced fuel (x - 1)%float, fib_traced fuel (x - 2)%float with
    | Some (a, ca), Some (b, cb) => Some ((a + b)%float, 1 + ca + cb)
    | _, _ => None
    end.
Proof. intros Hx. cbn [fib_traced]. rewrite Hx. reflexivity. Qed.

Lemma fib_traced_enough fuel : ∀ n,
  0 <= n <= checked → Z.max 1 n <= Z.of_nat fuel →
  ∃ v, fib_binary64 fuel (number n) = Some v
       ∧ fib_traced fuel (number n) = Some (v, 2 * fib (n + 1) - 1).
Proof.
  induction fuel as [|fuel IH]; intros n Hn Hfuel; [lia|].
  destruct (Z.ltb_spec n 2) as [Hlt|Hge].
  - exists (number n).
    rewrite fib_binary64_base, fib_traced_base by (apply number_below_two; lia).
    split; [reflexivity|].
    assert (n = 0 \/ n = 1) as [-> | ->] by lia; reflexivity.
  - destruct (descends_spec n) as (_ & H0 & H1 & H2); [lia|].
    destruct (IH (n - 1)) as (a & Ha & Hta); [unfold checked in *; lia..|].
    destruct (IH (n - 2)) as (b & Hb & Htb); [unfold checked in *; lia..|].
    exists (a + b)%float.
    rewrite fib_binary64_rec, fib_traced_rec, H1, H2, Ha, Hb, Hta, Htb by exact H0.
    split; [reflexivity|]. f_equal. f_equal.
    pose proof (fib_recurrence (n - 1) ltac:(lia)) as Hr.
    replace (n - 1 + 2) with (n + 1) in Hr by lia.
    replace (n - 1 + 1) with n in Hr by lia.
    replace (n - 2 + 1) with (n - 1) by lia.
    replace (n - 1 + 1) with n by lia. lia.
Qed.

(** X14.  The evaluation of [fib] at an integer [n] from 0 up to
    [checked] makes [2 * F - 1] invocations of [fib], where [F] is the
    Fibonacci number of [n + 1], and a single one at a number below 2:
    the work grows like the Fibonacci numbers themselves, which is what
    makes the task worth a worker thread. *)
Theorem fib_call_count (x : float) (n : Z) (fuel : nat) :
  ((x <? 2)%float = true → fib_traced (S fuel) x = Some (x, 1))
  ∧ (0 <= n <= checked → Z.max 1 n <= Z.of_nat fuel →
     ∃ v, fib_binary64 fuel (number n) = Some v
          ∧ fib_traced fuel (number n) = Some (v, 2 * fib (n + 1) - 1)).
Proof.
  split; [apply fib_traced_base|]. intros Hn Hfuel.
  apply fib_traced_enough; assumption.
Qed.

Lemma fib_call_count_witness :
  fib_traced 1 (number (-3)) = Some (number (-3), 1)
  ∧ fib_traced 10 (number 10) = Some (number 55, 177)
  ∧ (∃ v, fib_binary64 10 (number 10) = Some v
          ∧ fib_traced 10 (number 10) = Some (v, 2 * fib (10 + 1) - 1)).
Proof.
  split; [apply (fib_call_count (number (-3)) 0 0); vm_compute; reflexivity|].
  split; [vm_compute; reflexivity|].
  apply (fib_call_count 0%float 10 10); [unfold checked|]; lia.
Defined.

Lemma fib_fuel_depth (fuel : nat) : ∀ n,
  is_Some (fib_fuel fuel n) ↔ Z.max 1 n <= Z.of_nat fuel.
Proof.
  induction fuel as [|fuel IH]; intros n.
  - simpl. split; [intros [r Hr]; discriminate|lia].
  - destruct (Z.ltb_spec n 2) as [Hlt|Hge].
    + rewrite fib_fuel_base by exact Hlt. split; [lia|eauto].
    + rewrite fib_fuel_rec by exact Hge. split.
      * intros [r Hr].
        destruct (fib_fuel fuel (n - 1)) as [a|] eqn:Ha; [|discriminate].
        assert (Hs : is_Some (fib_fuel fuel (n - 1))) by (rewrite Ha; eauto).
        apply IH in Hs. lia.
      * intros Hle.
        destruct (proj2 (IH (n - 1))) as [a ->]; [lia|].
        destruct (proj2 (IH (n - 2))) as [b ->]; [lia|].
        eauto.
Qed.

(** X20.  On the inputs from 0 to 78 the recursion on integers computes
    what the source computes on its numbers: with the same depth of call
    stack both return, the input and the result of the one are the
    integers that the input and the result of the other are, and no
    operation in between has rounded. *)
Theorem integers_agree_with_binary64 (n : Z) (fuel : nat) :
  0 <= n <= 78 → Z.max 1 n <= Z.of_nat fuel →
  ∃ r, fib_binary64 fuel (number n) = Some r
       ∧ fib_fuel fuel n = Some (fib n)
       ∧ integer (number n) = Some n
       ∧ integer r = Some (fib n).
Proof.
  intros Hn Hfuel. exists (number (fib n)).
  split; [apply fib_binary64_exact; assumption|]. split; [|split].
  - destruct (proj2 (fib_fuel_depth fuel n) Hfuel) as [r Hr].
    rewrite Hr. f_equal. symmetry. exact (fib_fuel_fib _ _ _ Hr).
  - destruct (Z.ltb_spec n 2) as [Hlt|Hge].
    + assert (n = 0 \/ n = 1) as [-> | ->] by lia; vm_compute; reflexivity.
    + apply (descends_spec n). unfold checked. lia.
  - apply number_fib_exact, Hn.
Qed.

Lemma integers_agree_with_binary64_witness :
  ∃ r, fib_binary64 20 (number 20) = Some r
       ∧ fib_fuel 20 20 = Some (fib 20)
       ∧ integer (number 20) = Some 20
       ∧ integer r = Some (fib 20).
Proof. apply (integers_agree_with_binary64 20 20); lia. Defined.

End FibonacciWorkerMore.

(* ===================================================================== *)
(** ** Properties of scheduler/interval.scheduler.ts *)
(* ===================================================================== *)

Module IntervalSchedulerFacts.
Import IntervalScheduler.

Section Facts.

Context {Ms : Type}.
Implicit Types (s : State Ms) (T : Timers Ms) (t : Timer Ms)
  (inst : Instance Ms) (providers : list (InstanceWrapper Ms)).

(** *** The scan as a list of timers to start *)

Lemma install_app (ts1 ts2 : list (Timer Ms)) s :
  install (ts1 ++ ts2) s = install ts2 (install ts1 s).
Proof. apply foldl_app. Qed.

Lemma install_cons t (ts : list (Timer Ms)) s :
  install (t :: ts) s
  = install ts {| intervals := intervals s ++ [next_ref (timers s)];
                  timers := {| next_ref := S (next_ref (timers s));
                               active := <[next_ref (timers s) := t]>
                                           (active (timers s)) |} |}.
Proof. reflexivity. Qed.

Lemma schedule_install inst (ms : list (Method Ms)) : ∀ s,
  foldl (schedule inst) s ms
  = install (omap (λ m, match interval m with
                        | Some i => Some {| timer_instance := inst;
                                            timer_method := methodKey m;
                                            timer_interval := i |}
                        | None => None
                        end) ms) s.
Proof.
  induction ms as [|m ms IH]; intros s; [reflexivity|].
  cbn [foldl omap list_omap]. rewrite IH. unfold schedule.
  destruct (interval m); reflexivity.
Qed.

Lemma scan_install s (wrapper : InstanceWrapper Ms) :
  scan s wrapper
  = install match instance wrapper with
            | Some inst => if is_host inst then decorated_methods inst else []
            | None => []
            end s.
Proof.
  unfold scan, is_host. destruct (instance wrapper) as [inst|]; [|reflexivity].
  destruct (prototype inst); [|reflexivity]. simpl.
  destruct (default false (isIntervalHost inst)); [|reflexivity]. simpl.
  apply schedule_install.
Qed.

Lemma bootstrap_install providers : ∀ s,
  onApplicationBootstrap providers s = install (decorated providers) s.
Proof.
  induction providers as [|w providers IH]; intros s; [reflexivity|].
  unfold onApplicationBootstrap, decorated in *. cbn [foldl mbind list_bind].
  rewrite install_app, <- scan_install. apply IH.
Qed.

(** *** Starting and clearing timers *)

Lemma install_spec (ts : list (Timer Ms)) : ∀ s,
  intervals (install ts s) = intervals s ++ seq (next_ref (timers s)) (length ts)
  ∧ next_ref (timers (install ts s)) = (next_ref (timers s) + length ts)%nat
  ∧ ∀ r, active (timers (install ts s)) !! r
         = if decide (next_ref (timers s) ≤ r < next_ref (timers s) + length ts)%nat
           then ts !! (r - next_ref (timers s))%nat
           else active (timers s) !! r.
Proof.
  induction ts as [|t ts IH]; intros s.
  - simpl. rewrite app_nil_r, Nat.add_0_r. repeat split.
    intros r. case_decide; [lia|reflexivity].
  - rewrite install_cons.
    destruct (IH {| intervals := intervals s ++ [next_ref (timers s)];
                    timers := {| next_ref := S (next_ref (timers s));
                                 active := <[next_ref (timers s) := t]>
                                             (active (timers s)) |} |})
      as (Hi & Hn & Ha).
    simpl in Hi, Hn, Ha. simpl length.
    split; [rewrite Hi, <- app_assoc; reflexivity|].
    split; [rewrite Hn; lia|].
    intros r. rewrite Ha.
    destruct (decide (r = next_ref (timers s))) as [->|Hne].
    + rewrite lookup_insert_eq, Nat.sub_diag.
      repeat case_decide; try lia. reflexivity.
    + rewrite lookup_insert_ne by congruence.
      repeat case_decide; try lia; try reflexivity.
      replace (r - next_ref (timers s))%nat
        with (S (r - S (next_ref (timers s)))) by lia.
      reflexivity.
Qed.

Lemma clear_all_spec (refs : list nat) : ∀ T,
  next_ref (foldl (λ T ref, clearInterval ref T) T refs) = next_ref T
  ∧ ∀ r, active (foldl (λ T ref, clearInterval ref T) T refs) !! r
         = if decide (r ∈ refs) then None else active T !! r.
Proof.
  induction refs as [|ref refs IH]; intros T.
  - cbn [foldl]. split; [reflexivity|]. intros r.
    case_decide as Hin; [apply elem_of_nil in Hin; destruct Hin|reflexivity].
  - cbn [foldl]. destruct (IH (clearInterval ref T)) as [Hn Ha].
    split; [rewrite Hn; reflexivity|].
    intros r. rewrite Ha. simpl.
    destruct (decide (r = ref)) as [->|Hne].
    + rewrite lookup_delete_eq, (decide_True (P := ref ∈ ref :: refs)) by left.
      case_decide; reflexivity.
    + rewrite lookup_delete_ne by congruence.
      destruct (decide (r ∈ refs)) as [Hin|Hnin].
      * rewrite decide_True by (right; exact Hin). reflexivity.
      * rewrite decide_False; [reflexivity|].
        intros [?|?]%elem_of_cons; contradiction.
Qed.

(** X15.  At bootstrap the scheduler starts one timer for each method
    that carries an interval in a provider that has an instance with a
    prototype and whose class is marked as an interval host, and for
    nothing else: the timers get the next references of the runtime in
    the order of the scan, each calls its own method of its own instance
    at the interval of the decorator, the references are appended to
    [intervals], and the timers that were active before stay as they
    were. *)
Theorem bootstrap_starts_the_decorated_methods providers s :
  let s' := onApplicationBootstrap providers s in
  let n0 := next_ref (timers s) in
  let ts := decorated providers in
  intervals s' = intervals s ++ seq n0 (length ts)
  ∧ next_ref (timers s') = (n0 + length ts)%nat
  ∧ (∀ i t, ts !! i = Some t → active (timers s') !! (n0 + i)%nat = Some t)
  ∧ (∀ r, (r < n0)%nat → active (timers s') !! r = active (timers s) !! r).
Proof.
  cbv zeta. rewrite bootstrap_install.
  destruct (install_spec (decorated providers) s) as (Hi & Hn & Ha).
  split; [exact Hi|]. split; [exact Hn|]. split.
  - intros i t Hit. rewrite Ha.
    apply lookup_lt_Some in Hit as Hlt.
    rewrite decide_True by lia.
    replace (next_ref (timers s) + i - next_ref (timers s))%nat with i by lia.
    exact Hit.
  - intros r Hr. rewrite Ha. rewrite decide_False by lia. reflexivity.
Qed.

(** X16.  Bootstrap followed by shutdown leaves no timer behind.  For a
    scheduler as constructed, in a runtime whose active timers were all
    handed out by [setInterval], the active timers after the shutdown
    are exactly those from before the bootstrap: every timer the
    scheduler started, one per decorated method, is cleared, and no
    other timer is touched. *)
Theorem shutdown_clears_the_started_timers providers T :
  timers_fresh T →
  let s := onApplicationShutdown (onApplicationBootstrap providers (new_scheduler T)) in
  active (timers s) = active T
  ∧ (∀ ref, ref ∈ intervals s → active (timers s) !! ref = None)
  ∧ length (intervals s) = length (decorated providers).
Proof.
  intros Hfresh. cbv zeta. rewrite bootstrap_install.
  destruct (install_spec (decorated providers) (new_scheduler T)) as (Hi & Hn & Ha).
  simpl in Hi, Hn, Ha. unfold onApplicationShutdown. simpl.
  destruct (clear_all_spec (intervals (install (decorated providers) (new_scheduler T)))
              (timers (install (decorated providers) (new_scheduler T))))
    as [_ Hc].
  split; [|split].
  - apply map_eq. intros r. rewrite Hc, Hi, Ha.
    destruct (decide (r ∈ seq (next_ref T) (length (decorated providers))))
      as [Hin|Hnin].
    + apply elem_of_seq in Hin. symmetry. apply Hfresh. lia.
    + rewrite elem_of_seq in Hnin. rewrite decide_False by lia. reflexivity.
  - intros ref Href. rewrite Hc. rewrite decide_True by exact Href. reflexivity.
  - rewrite Hi, length_seq. reflexivity.
Qed.

(** X17.  The shutdown clears the timers listed in [intervals] and only
    those, and keeps the list; so a second shutdown, which clears the
    same references again, changes nothing. *)
Theorem shutdown_is_idempotent s :
  (∀ r, active (timers (onApplicationShutdown s)) !! r
        = if decide (r ∈ intervals s) then None else active (timers s) !! r)
  ∧ intervals (onApplicationShutdown s) = intervals s
  ∧ onApplicationShutdown (onApplicationShutdown s) = onApplicationShutdown s.
Proof.
  unfold onApplicationShutdown. simpl.
  destruct (clear_all_spec (intervals s) (timers s)) as [Hn Hc].
  split; [exact Hc|]. split; [reflexivity|].
  f_equal.
  destruct (clear_all_spec (intervals s)
              (foldl (λ T ref, clearInterval ref T) (timers s) (intervals s)))
    as [Hn' Hc'].
  destruct (foldl (λ T ref, clearInterval ref T)
              (foldl (λ T ref, clearInterval ref T) (timers s) (intervals s))
              (intervals s)) as [n2 a2] eqn:E2.
  destruct (foldl (λ T ref, clearInterval ref T) (timers s) (intervals s))
    as [n1 a1] eqn:E1.
  simpl in *. f_equal; [congruence|].
  apply map_eq. intros r. rewrite Hc'. case_decide as Hin; [|reflexivity].
  rewrite Hc. rewrite decide_True by exact Hin. reflexivity.
Qed.

Lemma decorated_methods_none inst :
  (∀ m, m ∈ methods inst → interval m = None) → decorated_methods inst = [].
Proof.
  unfold decorated_methods. induction (methods inst) as [|m ms IH]; intros Hall;
    [reflexivity|].
  cbn [omap list_omap]. rewrite (Hall m) by left.
  apply IH. intros m' Hm'. apply Hall. right. exact Hm'.
Qed.

(** X18.  Nothing else is ever scheduled.  When every provider lacks an
    instance or a prototype, or its class carries no truthy interval-host
    mark, or none of its methods carries an interval, the bootstrap
    starts no timer and leaves scheduler and runtime as they were; in
    particular an [@Interval] method of a class that is not an
    [@IntervalHost] never runs. *)
Theorem bootstrap_ignores_other_providers providers s :
  (∀ w inst, w ∈ providers → instance w = Some inst →
     prototype inst = false
     ∨ isIntervalHost inst = None
     ∨ isIntervalHost inst = Some false
     ∨ ∀ m, m ∈ methods inst → interval m = None) →
  onApplicationBootstrap providers s = s.
Proof.
  intros Hall. rewrite bootstrap_install.
  assert (Hnone : decorated providers = []); [|rewrite Hnone; reflexivity].
  unfold decorated. induction providers as [|w providers IH]; [reflexivity|].
  cbn [mbind list_bind].
  rewrite IH by (intros w' inst Hw'; apply Hall; right; exact Hw').
  rewrite app_nil_r.
  destruct (instance w) as [inst|] eqn:Hinst; [|reflexivity].
  unfold is_host.
  destruct (Hall w inst ltac:(left) Hinst) as [-> |[-> |[-> |Hm]]];
    try reflexivity; rewrite ?andb_false_r; try reflexivity.
  rewrite (decorated_methods_none inst Hm).
  destruct (_ && _); reflexivity.
Qed.

End Facts.

(** The cron service of the application, an interval host with one
    method every second, among providers the scan skips. *)
Lemma shutdown_clears_the_started_timers_witness :
  let cron : Instance Z :=
    {| prototype := true; isIntervalHost := Some true;
       methods := [ {| methodKey := "everySecond"; interval := Some 1000%Z |} ] |} in
  let other : Instance Z :=
    {| prototype := true; isIntervalHost := None;
       methods := [ {| methodKey := "findAll"; interval := None |} ] |} in
  let providers := [ {| instance := None |}; {| instance := Some other |};
                     {| instance := Some cron |} ] in
  let T : Timers Z := {| next_ref := 0; active := ∅ |} in
  intervals (onApplicationBootstrap providers (new_scheduler T)) = [0]
  ∧ active (timers (onApplicationBootstrap providers (new_scheduler T))) !! 0
    = Some {| timer_instance := cron; timer_method := "everySecond";
              timer_interval := 1000%Z |}
  ∧ active (timers (onApplicationShutdown
                      (onApplicationBootstrap providers (new_scheduler T))))
    = ∅.
Proof.
  cbv zeta. split; [reflexivity|]. split; [reflexivity|].
  apply (shutdown_clears_the_started_timers
           [ {| instance := None |};
             {| instance := Some {| prototype := true; isIntervalHost := None;
                   methods := [ {| methodKey := "findAll"; interval := None |} ] |} |};
             {| instance := Some {| prototype := true; isIntervalHost := Some true;
                   methods := [ {| methodKey := "everySecond";
                                   interval := Some 1000%Z |} ] |} |} ]
           {| next_ref := 0; active := ∅ |}).
  intros r _. simpl. apply lookup_empty.
Defined.

Lemma bootstrap_ignores_other_providers_witness :
  onApplicationBootstrap
    [ {| instance := None |};
      {| instance := Some {| prototype := true; isIntervalHost := None;
            methods := [ {| methodKey := "tick"; interval := Some 5%Z |} ] |} |};
      {| instance := Some {| prototype := true; isIntervalHost := Some true;
            methods := [ {| methodKey := "plain"; interval := None |} ] |} |} ]
    (new_scheduler {| next_ref := 3; active := ∅ |})
  = new_scheduler {| next_ref := 3; active := ∅ |}.
Proof.
  apply (bootstrap_ignores_other_providers (Ms := Z)).
  intros w inst Hw Hinst.
  repeat (apply elem_of_cons in Hw as [->|Hw];
          [simpl in Hinst; first [discriminate Hinst | injection Hinst as <-]|]).
  - right. left. reflexivity.
  - right. right. right. intros m Hm. simpl in Hm.
    apply list_elem_of_singleton in Hm. subst m. reflexivity.
  - apply elem_of_nil in Hw. destruct Hw.
Defined.

End IntervalSchedulerFacts.
